(** * A todo list over one PostgreSQL table: the four request handlers

    The server keeps every todo in the table [todosTable] and serves four
    remote procedures, each of them one SQL statement issued through the
    query builder:

    - [getTodos]              [db.select().from(todosTable)]
    - [updateTodoCompletion]  [db.update(todosTable).set(..).where(..).returning()]
    - [createTodo]            one insert returning the new row
    - [deleteTodo]            one delete by id

    The development has three layers, as the server has: the rows and the
    table (module [Pg], the statements the handlers issue), the handlers
    themselves, and the properties of the handlers. *)

From Stdlib Require Import ZArith List String Ascii Bool Lia.
From Stdlib Require Import Sorted Permutation DecimalString DecimalZ.
Import ListNotations.

Local Open Scope string_scope.
Local Open Scope list_scope.
Local Open Scope Z_scope.

(* ================================================================= *)
(** ** Data model *)

(** A [Date], as the handlers hand it out: whole milliseconds since the
    epoch ([Date.getTime()]). *)
Definition timestamp := Z.

(** [type Todo]: one row of the table, as every handler returns it. *)
Record Todo := mkTodo {
  id          : Z;
  title       : string;
  description : option string;      (* [string | null] *)
  completed   : bool;
  created_at  : timestamp;
  updated_at  : timestamp
}.

(** [type CreateTodoInput = { title: string; description?: string | null }].
    The description has three shapes: left out ([None]), given as [null]
    ([Some None]) and given as a text ([Some (Some d)]). *)
Record CreateTodoInput := mkCreateTodoInput {
  input_title       : string;
  input_description : option (option string)
}.

(** [type UpdateTodoCompletionInput = { id: number; completed: boolean }]. *)
Record UpdateTodoCompletionInput := mkUpdateTodoCompletionInput {
  update_id        : Z;
  update_completed : bool
}.

(** [type DeleteTodoInput = { id: number }]. *)
Record DeleteTodoInput := mkDeleteTodoInput {
  delete_id : Z
}.

(** What [deleteTodo] answers: [{ success: boolean }]. *)
Record DeleteResult := mkDeleteResult {
  success : bool
}.

(** The database: the rows of [todosTable] in the order in which a scan of
    the table meets them, and the last value drawn from the sequence behind
    the [id] column. *)
Record Db := mkDb {
  todosTable   : list Todo;
  todos_id_seq : Z
}.

(** The database right after [createDB]: no row, no id drawn yet. *)
Definition empty_db : Db := mkDb [] 0.

(* ================================================================= *)
(** ** Failures and the handler monad *)

(** A thrown [Error]: its message.  Input rejected by the validation
    layer in front of the handlers is a failure of its own kind, and so
    is an error that the database raises while it runs a statement (its
    text is the database's). *)
Inductive error :=
| Error (message : string)
| ValidationError
| DatabaseError.

Inductive result (A : Type) :=
| Ok  (value : A)
| Err (e : error).
Arguments Ok {A} value.
Arguments Err {A} e.

(** A handler runs against the database and either returns or throws; what
    it did to the database before throwing stays done. *)
Definition M (A : Type) : Type := Db -> result A * Db.

Definition ret {A} (a : A) : M A := fun s => (Ok a, s).

Definition throw {A} (e : error) : M A := fun s => (Err e, s).

Definition bind {A B} (m : M A) (k : A -> M B) : M B :=
  fun s =>
    match m s with
    | (Ok a, s')  => k a s'
    | (Err e, s') => (Err e, s')
    end.

(** [try { body } catch (error) { handler }]. *)
Definition try_catch {A} (body : M A) (handler : error -> M A) : M A :=
  fun s =>
    match body s with
    | (Ok a, s')  => (Ok a, s')
    | (Err e, s') => handler e s'
    end.

Notation "x <- m ;; k" := (bind m (fun x => k))
  (at level 61, m at next level, right associativity).

(* ================================================================= *)
(** ** The statements the handlers issue *)

Module Pg.

(** [eq(todosTable.id, i)]. *)
Definition eq_id (i : Z) (r : Todo) : bool := id r =? i.

(** [SELECT * FROM todos], without [ORDER BY]: the rows as the scan
    meets them. *)
Definition select_all : M (list Todo) :=
  fun s => (Ok (todosTable s), s).

(** The [SET] clause of the completion update:
    [{ completed: input.completed, updated_at: sql`NOW()` }]. *)
Definition set_completion (v : bool) (now : timestamp) (r : Todo) : Todo :=
  mkTodo (id r) (title r) (description r) v (created_at r) now.

(** The id column is a 32-bit integer column. *)
Definition int4_min : Z := -2147483648.
Definition int4_max : Z := 2147483647.

Definition in_int4 (i : Z) : bool := (int4_min <=? i) && (i <=? int4_max).

(** The parameter of [WHERE id = $1] has to be a value of the id column;
    for any other number the database refuses the statement (integer out
    of range).  The column holds the 32-bit integers; the sequence is not
    bounded here, so the column is taken to hold as well every id that a
    row of the table already has. *)
Definition accepts_id (i : Z) (s : Db) : bool :=
  in_int4 i || existsb (eq_id i) (todosTable s).

(** [UPDATE todos SET .. WHERE id = i RETURNING *].  The statement fails
    with the database's error, and nothing is written, when [i] is not a
    value of the id column.  Otherwise: PostgreSQL never overwrites a row,
    an update stores a new version of each row it matches and retires the
    old one, and on a table whose pages have not been pruned a scan meets
    the new versions after the rows that were not touched.  Where a new
    version lands once space has been reclaimed is not modelled; of the
    properties below only the evaluation of the two-creations-one-update
    history, on a fresh table, depends on the place.  The statement
    returns the new versions. *)
Definition update_returning (i : Z) (set : Todo -> Todo) : M (list Todo) :=
  fun s =>
    if accepts_id i s then
      let written := map set (filter (eq_id i) (todosTable s)) in
      let kept    := filter (fun r => negb (eq_id i r)) (todosTable s) in
      (Ok written, mkDb (kept ++ written) (todos_id_seq s))
    else (Err DatabaseError, s).

(** Modelled from the spec: the table definition ([db/schema.ts]) is not
    among the sources.  The spec gives the insert: the row receives a
    server-assigned [id] from an auto-incrementing key that is never
    reused, [completed = false], and [created_at = updated_at = now]; it
    is stored after the rows already there. *)
Definition insert_returning (now : timestamp) (t : string)
    (d : option string) : M Todo :=
  fun s =>
    let i := todos_id_seq s + 1 in
    let r := mkTodo i t d false now now in
    (Ok r, mkDb (todosTable s ++ [r]) i).

(** Modelled from the spec: [deleteById] removes the row matching the id
    and tells whether a row was actually removed. *)
Definition delete_by_id (i : Z) : M bool :=
  fun s =>
    (Ok (existsb (eq_id i) (todosTable s)),
     mkDb (filter (fun r => negb (eq_id i r)) (todosTable s))
          (todos_id_seq s)).

End Pg.

(* ================================================================= *)
(** ** The handlers *)

(** A number inside a template literal: [`${n}`], for an integer [n]: its
    decimal digits, with a minus sign when negative (what JavaScript prints
    for every integer below 10^21 in magnitude). *)
Definition number_to_string (n : Z) : string :=
  NilEmpty.string_of_int (Z.to_int n).

(** [`Todo with id ${input.id} not found`]. *)
Definition not_found_message (i : Z) : string :=
  ("Todo with id " ++ number_to_string i ++ " not found")%string.

(** [handlers/get_todos.ts].  The [catch] logs to the console and throws
    the same error again; the console is not part of the model. *)
Definition getTodos : M (list Todo) :=
  try_catch
    (results <- Pg.select_all ;;
     ret results)
    (fun e => throw e).

(** [handlers/update_todo_completion.ts], the implemented handler (the
    placeholder declaration is [updateTodoCompletion_placeholder] below);
    [now] is what [NOW()] reads while the statement runs.  The [catch]
    logs and throws the same error again, the not-found error of the
    handler as well as an error of the database. *)
Definition updateTodoCompletion (now : timestamp)
    (input : UpdateTodoCompletionInput) : M Todo :=
  try_catch
    (rs <- Pg.update_returning (update_id input)
             (Pg.set_completion (update_completed input) now) ;;
     match rs with
     | []     => throw (Error (not_found_message (update_id input)))
     | r :: _ => ret r
     end)
    (fun e => throw e).

(** Modelled from the spec: [handlers/create_todo.ts] is not among the
    sources, only its tests are.  The spec: the title must be a non-empty
    string, or the input is rejected before it reaches the table; a
    description left out or given as [null] is stored as absent; the
    handler delegates to the insert and returns the new row. *)
Definition createTodo (now : timestamp) (input : CreateTodoInput) : M Todo :=
  if (input_title input =? EmptyString)%string then throw ValidationError
  else
    Pg.insert_returning now (input_title input)
      (match input_description input with
       | Some (Some d) => Some d
       | Some None     => None
       | None          => None
       end).

(** Modelled from the spec: [handlers/delete_todo.ts] is not among the
    sources, only its tests are.  The spec: the handler calls [deleteById]
    and answers [{ success }] with what the store reported; a missing id is
    an answer, not an error. *)
Definition deleteTodo (input : DeleteTodoInput) : M DeleteResult :=
  removed <- Pg.delete_by_id (delete_id input) ;;
  ret (mkDeleteResult removed).

(* ================================================================= *)
(** ** Requests and histories *)

(** The four remote procedures, with their inputs. *)
Inductive request :=
| CreateTodo (input : CreateTodoInput)
| GetTodos
| UpdateTodoCompletion (input : UpdateTodoCompletionInput)
| DeleteTodo (input : DeleteTodoInput).

(** The database after one request served at server time [now]. *)
Definition serve (now : timestamp) (rq : request) (s : Db) : Db :=
  match rq with
  | CreateTodo input           => snd (createTodo now input s)
  | GetTodos                   => snd (getTodos s)
  | UpdateTodoCompletion input => snd (updateTodoCompletion now input s)
  | DeleteTodo input           => snd (deleteTodo input s)
  end.

(** A history: the requests in the order served, each with the server time
    at which it ran. *)
Fixpoint run (h : list (timestamp * request)) (s : Db) : Db :=
  match h with
  | []             => s
  | (now, rq) :: h => run h (serve now rq s)
  end.

(** [reachable t s]: [s] is the database after some history that started
    from the empty table, [t] is the latest reading of the server clock,
    and the clock never ran backwards. *)
Inductive reachable : timestamp -> Db -> Prop :=
| reachable_init : forall t, reachable t empty_db
| reachable_step : forall t s now rq,
    reachable t s -> t <= now -> reachable now (serve now rq s).

(** A history on which the server clock never runs backwards from [t]
    on, and the last reading of the clock along it. *)
Fixpoint chronological (t : timestamp) (h : list (timestamp * request)) : Prop :=
  match h with
  | []             => True
  | (now, _) :: h' => t <= now /\ chronological now h'
  end.

Fixpoint last_reading (t : timestamp) (h : list (timestamp * request))
    : timestamp :=
  match h with
  | []             => t
  | (now, _) :: h' => last_reading now h'
  end.

(** The row a query by id finds: [select .. where eq(todosTable.id, i)],
    first match. *)
Definition lookup (i : Z) (s : Db) : option Todo :=
  find (Pg.eq_id i) (todosTable s).

Definition ids (s : Db) : list Z := map id (todosTable s).

(** What [getTodos] hands back on a database. *)
Definition listed (s : Db) : list Todo :=
  match fst (getTodos s) with
  | Ok rs => rs
  | Err _ => []
  end.

(** Ids in ascending order, each strictly above the ones before it. *)
Definition ascending (l : list Z) : Prop := StronglySorted Z.lt l.

(* ================================================================= *)
(** ** Invariants of the table *)

(** Every id in the table was drawn from the sequence. *)
Definition seq_ok (s : Db) : Prop :=
  Forall (fun r => id r <= todos_id_seq s) (todosTable s).

(** No row was stamped later than [t], nor updated before it was created. *)
Definition stamped (t : timestamp) (s : Db) : Prop :=
  Forall (fun r => created_at r <= updated_at r /\ updated_at r <= t)
         (todosTable s).

Definition inv (t : timestamp) (s : Db) : Prop :=
  NoDup (ids s) /\ seq_ok s /\ stamped t s.

(** An id the sequence has passed and that is not in the table. *)
Definition gone (i : Z) (s : Db) : Prop :=
  ~ In i (ids s) /\ i <= todos_id_seq s.

(* ================================================================= *)
(** ** Sample inputs and histories *)

Definition alpha : CreateTodoInput := mkCreateTodoInput "Alpha Todo" None.
Definition beta  : CreateTodoInput := mkCreateTodoInput "Beta Todo" (Some None).
Definition gamma : CreateTodoInput :=
  mkCreateTodoInput "Gamma Todo" (Some (Some "Description for Gamma Todo")).

(** Three creations, one millisecond apart. *)
Definition three_created : list (timestamp * request) :=
  [(1000, CreateTodo alpha); (1001, CreateTodo beta); (1002, CreateTodo gamma)].

(** Two creations, then the first todo is marked completed. *)
Definition first_completed : list (timestamp * request) :=
  [(1000, CreateTodo alpha); (1001, CreateTodo beta);
   (1002, UpdateTodoCompletion (mkUpdateTodoCompletionInput 1 true))].

(** Three creations, then the second is completed and reopened. *)
Definition second_toggled : list (timestamp * request) :=
  three_created ++
  [(1003, UpdateTodoCompletion (mkUpdateTodoCompletionInput 2 true));
   (1003, UpdateTodoCompletion (mkUpdateTodoCompletionInput 2 false))].

(** The table after the three creations. *)
Definition three_todos : Db := run three_created empty_db.

(** A creation, and a completion update served after the server clock was
    set back by a millisecond. *)
Definition clock_set_back : list (timestamp * request) :=
  [(1000, CreateTodo alpha);
   (999, UpdateTodoCompletion (mkUpdateTodoCompletionInput 1 true))].

(** The ids of a table are distinct and were all drawn from the sequence. *)
Definition ids_ok (s : Db) : Prop := NoDup (ids s) /\ seq_ok s.

(* ================================================================= *)
(** ** The placeholder handler *)

(** The placeholder declaration of [updateTodoCompletion] that stands
    beside the implemented handler: it resolves to a made-up todo and
    issues no statement.  [new Date()] is evaluated twice, first for
    [created_at] and then for [updated_at]: [t1] and [t2] are the two
    readings. *)
Definition updateTodoCompletion_placeholder (t1 t2 : timestamp)
    (input : UpdateTodoCompletionInput) : M Todo :=
  ret (mkTodo (update_id input) "Sample Todo" None (update_completed input)
              t1 t2).

(* ================================================================= *)
(** ** The client: [App.tsx] *)

(** Text in the client is text as JavaScript has it, a sequence of code
    units; a [string] carries the code units below 256.  Of the white
    space and line terminators that [trim] strips, those are tab, line
    feed, vertical tab, form feed, carriage return, space and no-break
    space. *)
Definition is_white_space (c : ascii) : bool :=
  let n := N_of_ascii c in
  (((9 <=? n) && (n <=? 13)) || (n =? 32) || (n =? 160))%N.

Fixpoint trim_start (s : string) : string :=
  match s with
  | EmptyString => EmptyString
  | String c s' => if is_white_space c then trim_start s' else s
  end.

Fixpoint trim_end (s : string) : string :=
  match s with
  | EmptyString => EmptyString
  | String c s' =>
      match trim_end s' with
      | EmptyString => if is_white_space c then EmptyString
                       else String c EmptyString
      | t => String c t
      end
  end.

(** [s.trim()]. *)
Definition trim (s : string) : string := trim_end (trim_start s).

(** A text made of white space only, the empty text included. *)
Fixpoint all_white_space (s : string) : bool :=
  match s with
  | EmptyString => true
  | String c s' => is_white_space c && all_white_space s'
  end.

(** [v || null] on a text: the empty text is falsy. *)
Definition or_null (v : string) : option string :=
  if (v =? EmptyString)%string then None else Some v.

(** [d || ''] on a description that may be left out or null. *)
Definition or_empty (d : option (option string)) : string :=
  match d with
  | Some (Some v) => v
  | _ => EmptyString
  end.

(** The state of [App], one field for each [useState]. *)
Record App := mkApp {
  todos      : list Todo;
  isLoading  : bool;
  isCreating : bool;
  formData   : CreateTodoInput
}.

(** The form as [useState] sets it up and as a successful submit leaves
    it: [{ title: '', description: null }]. *)
Definition empty_form : CreateTodoInput :=
  mkCreateTodoInput EmptyString (Some None).

Definition initial_app : App := mkApp [] false false empty_form.

Definition setTodos (l : list Todo) (a : App) : App :=
  mkApp l (isLoading a) (isCreating a) (formData a).

Definition setIsLoading (b : bool) (a : App) : App :=
  mkApp (todos a) b (isCreating a) (formData a).

Definition setIsCreating (b : bool) (a : App) : App :=
  mkApp (todos a) (isLoading a) b (formData a).

Definition setFormData (f : CreateTodoInput) (a : App) : App :=
  mkApp (todos a) (isLoading a) (isCreating a) f.

(** The browser and the server together.  A handler of the client runs to
    its end before the next event is taken up; the server is reached
    through the remote procedures only. *)
Definition world : Type := App * Db.

(** [loadTodos]: the list is replaced by what [getTodos] answers; a
    failure is logged and the list is kept; [finally] clears the flag. *)
Definition loadTodos (w : world) : world :=
  let (a, s) := w in
  let a := setIsLoading true a in
  match getTodos s with
  | (Ok result, s') => (setIsLoading false (setTodos result a), s')
  | (Err _, s')     => (setIsLoading false a, s')
  end.

(** The title field: [{ ...prev, title: e.target.value }]. *)
Definition changeTitle (v : string) (a : App) : App :=
  setFormData (mkCreateTodoInput v (input_description (formData a))) a.

(** The description field:
    [{ ...prev, description: e.target.value || null }]. *)
Definition changeDescription (v : string) (a : App) : App :=
  setFormData (mkCreateTodoInput (input_title (formData a)) (Some (or_null v)))
              a.

(** What the description field displays: [formData.description || '']. *)
Definition description_value (a : App) : string :=
  or_empty (input_description (formData a)).

(** [handleSubmit]: nothing happens when the trimmed title is empty;
    otherwise the form is sent as it stands, the answer is appended to the
    list and the form is reset; a failure is logged and list and form are
    kept; [finally] clears the flag. *)
Definition handleSubmit (now : timestamp) (w : world) : world :=
  let (a, s) := w in
  if (trim (input_title (formData a)) =? EmptyString)%string then (a, s)
  else
    let a := setIsCreating true a in
    match createTodo now (formData a) s with
    | (Ok response, s') =>
        (setIsCreating false
           (setFormData empty_form (setTodos (todos a ++ [response]) a)), s')
    | (Err _, s') => (setIsCreating false a, s')
    end.

(** [{ ...todo, completed: c }]. *)
Definition with_completed (c : bool) (todo : Todo) : Todo :=
  mkTodo (id todo) (title todo) (description todo) c
         (created_at todo) (updated_at todo).

(** [handleToggleComplete(id, completed)]: of the answer only [completed]
    is merged, into every listed todo with that id; a failure is logged
    and the list is kept. *)
Definition handleToggleComplete (now : timestamp) (i : Z) (c : bool)
    (w : world) : world :=
  let (a, s) := w in
  match updateTodoCompletion now (mkUpdateTodoCompletionInput i c) s with
  | (Ok updatedTodo, s') =>
      (setTodos
         (map (fun todo =>
                 if id todo =? i then with_completed (completed updatedTodo) todo
                 else todo)
              (todos a)) a, s')
  | (Err _, s') => (a, s')
  end.

(** [handleDelete(id)]: the answer itself is not looked at; unless the
    call fails, every listed todo with that id is dropped. *)
Definition handleDelete (i : Z) (w : world) : world :=
  let (a, s) := w in
  match deleteTodo (mkDeleteTodoInput i) s with
  | (Ok _, s')  =>
      (setTodos (filter (fun todo => negb (id todo =? i)) (todos a)) a, s')
  | (Err _, s') => (a, s')
  end.

(** The badges: [completedCount], [totalCount] and the number shown as
    remaining, [totalCount - completedCount]. *)
Definition completedCount (a : App) : nat :=
  List.length (filter (fun todo => completed todo) (todos a)).

Definition totalCount (a : App) : nat := List.length (todos a).

Definition remainingCount (a : App) : Z :=
  Z.of_nat (totalCount a) - Z.of_nat (completedCount a).

(** The three panels below the form and the conditions they render under. *)
Definition shows_loading (a : App) : bool := isLoading a.

Definition shows_empty_state (a : App) : bool :=
  negb (isLoading a) && (List.length (todos a) =? 0)%nat.

Definition shows_list (a : App) : bool :=
  negb (isLoading a) && (0 <? List.length (todos a))%nat.

(** The submit button: [disabled={isCreating || !formData.title.trim()}]. *)
Definition submit_disabled (a : App) : bool :=
  isCreating a || (trim (input_title (formData a)) =? EmptyString)%string.

(** What the user does.  The todo buttons exist once for each listed todo
    and are named here by the position of the todo in the list. *)
Inductive event :=
| Mount                              (* [useEffect]: [loadTodos()] *)
| TitleChange (v : string)
| DescriptionChange (v : string)
| Submit
| ToggleClick (n : nat)  (* [handleToggleComplete(todo.id, !todo.completed)] *)
| DeleteClick (n : nat). (* [handleDelete(todo.id)] *)

(** One event, its remote call served at server time [now]. *)
Definition react (now : timestamp) (ev : event) (w : world) : world :=
  match ev with
  | Mount               => loadTodos w
  | TitleChange v       => (changeTitle v (fst w), snd w)
  | DescriptionChange v => (changeDescription v (fst w), snd w)
  | Submit              => handleSubmit now w
  | ToggleClick n =>
      match nth_error (todos (fst w)) n with
      | Some todo => handleToggleComplete now (id todo) (negb (completed todo)) w
      | None      => w
      end
  | DeleteClick n =>
      match nth_error (todos (fst w)) n with
      | Some todo => handleDelete (id todo) w
      | None      => w
      end
  end.

(** A session: the events in order, each with the server time of its call. *)
Fixpoint session (evs : list (timestamp * event)) (w : world) : world :=
  match evs with
  | []               => w
  | (now, ev) :: evs => session evs (react now ev w)
  end.

(** A todo as the list shows it: every field but [updated_at], which the
    client does not refresh. *)
Definition shown (r : Todo) : Todo :=
  mkTodo (id r) (title r) (description r) (completed r) (created_at r) 0.

(** The list holds the todos of the table, each once, with the fields the
    list shows. *)
Definition in_sync (w : world) : Prop :=
  Permutation (map shown (todos (fst w))) (map shown (todosTable (snd w))).

(* ================================================================= *)
(** ** Selecting and leaving rows by id *)

Lemma eq_id_true i r : Pg.eq_id i r = true <-> id r = i.
Proof. unfold Pg.eq_id. apply Z.eqb_eq. Qed.

Lemma eq_id_false i r : Pg.eq_id i r = false <-> id r <> i.
Proof. unfold Pg.eq_id. apply Z.eqb_neq. Qed.

Section ById.

Variable i : Z.

Local Abbreviation hit  := (Pg.eq_id i).
Local Abbreviation miss := (fun r => negb (Pg.eq_id i r)).

Lemma find_none_absent l : find hit l = None <-> ~ In i (map id l).
Proof.
  induction l as [|r l IH]; simpl.
  - tauto.
  - destruct (Pg.eq_id i r) eqn:E.
    + apply eq_id_true in E. split; [discriminate | intros H; exfalso; auto].
    + apply eq_id_false in E. rewrite IH. tauto.
Qed.

Lemma filter_hit_absent l : ~ In i (map id l) -> filter hit l = [].
Proof.
  induction l as [|r l IH]; simpl; intros H; [reflexivity|].
  destruct (Pg.eq_id i r) eqn:E.
  - apply eq_id_true in E. exfalso; auto.
  - apply IH. tauto.
Qed.

Lemma filter_miss_absent l : ~ In i (map id l) -> filter miss l = l.
Proof.
  induction l as [|r l IH]; simpl; intros H; [reflexivity|].
  simpl. destruct (Pg.eq_id i r) eqn:E; simpl.
  - apply eq_id_true in E. exfalso; auto.
  - f_equal. apply IH. tauto.
Qed.

Lemma find_filter_head l r :
  find hit l = Some r -> exists rest, filter hit l = r :: rest.
Proof.
  induction l as [|a l IH]; simpl; [discriminate|].
  destruct (Pg.eq_id i a) eqn:E; intros H.
  - injection H as ->. eauto.
  - auto.
Qed.

Lemma find_hit_id l r : find hit l = Some r -> id r = i.
Proof. intros H. apply find_some in H. apply eq_id_true, H. Qed.

Lemma find_miss_none l : find hit (filter miss l) = None.
Proof.
  induction l as [|a l IH]; simpl; [reflexivity|].
  simpl. destruct (Pg.eq_id i a) eqn:E; simpl; [assumption|].
  rewrite E. assumption.
Qed.

Lemma existsb_hit l : existsb hit l = true <-> In i (map id l).
Proof.
  rewrite existsb_exists, in_map_iff.
  split; intros [r [H1 H2]]; exists r.
  - apply eq_id_true in H2. tauto.
  - split; [tauto | apply eq_id_true; tauto].
Qed.

Lemma existsb_hit_false l : existsb hit l = false <-> ~ In i (map id l).
Proof.
  rewrite <- existsb_hit. destruct (existsb hit l); split; intros H;
    try discriminate; try reflexivity; exfalso; auto.
Qed.

Lemma in_miss l r : In r (filter miss l) <-> In r l /\ id r <> i.
Proof.
  rewrite filter_In. simpl. rewrite negb_true_iff, eq_id_false.
  tauto.
Qed.

Lemma ids_miss l : ~ In i (map id (filter miss l)).
Proof.
  rewrite in_map_iff. intros [r [H1 H2]]. apply in_miss in H2. tauto.
Qed.

(** A query for another id does not see whether the rows with id [i]
    are there or not. *)
Lemma find_other_miss j l :
  j <> i -> find (Pg.eq_id j) (filter miss l) = find (Pg.eq_id j) l.
Proof.
  intros Hj. induction l as [|a l IH]; simpl; [reflexivity|].
  simpl. destruct (Pg.eq_id i a) eqn:E; simpl.
  - apply eq_id_true in E.
    assert (Pg.eq_id j a = false) as -> by (apply eq_id_false; lia).
    exact IH.
  - rewrite IH. reflexivity.
Qed.

Lemma length_hit_miss l :
  (List.length (filter miss l) + List.length (filter hit l))%nat = List.length l.
Proof.
  induction l as [|a l IH]; simpl; [reflexivity|].
  simpl. destruct (Pg.eq_id i a); simpl; lia.
Qed.

Lemma NoDup_length_miss l :
  NoDup (map id l) -> In i (map id l) ->
  (List.length (filter miss l) + 1)%nat = List.length l.
Proof.
  induction l as [|a l IH]; simpl; intros Hnd Hin; [contradiction|].
  inversion Hnd as [|? ? Hnotin Hnd']; subst.
  simpl. destruct (Pg.eq_id i a) eqn:E; simpl.
  - apply eq_id_true in E. rewrite E in Hnotin.
    rewrite (filter_miss_absent l Hnotin). lia.
  - apply eq_id_false in E. destruct Hin as [Hin|Hin]; [contradiction|].
    rewrite <- (IH Hnd' Hin). lia.
Qed.

End ById.

Lemma find_app (p : Todo -> bool) l1 l2 :
  find p (l1 ++ l2) =
  match find p l1 with Some r => Some r | None => find p l2 end.
Proof.
  induction l1 as [|a l1 IH]; simpl; [reflexivity|].
  destruct (p a); [reflexivity | exact IH].
Qed.

Lemma find_other_hit i j (set : Todo -> Todo) l :
  j <> i -> (forall r, id (set r) = id r) ->
  find (Pg.eq_id j) (map set (filter (Pg.eq_id i) l)) = None.
Proof.
  intros Hj Hset. apply find_none_absent. rewrite map_map, in_map_iff.
  intros [r [H1 H2]]. rewrite Hset in H1. apply filter_In in H2.
  destruct H2 as [_ H2]. apply eq_id_true in H2. lia.
Qed.

Lemma NoDup_ids_filter (p : Todo -> bool) l :
  NoDup (map id l) -> NoDup (map id (filter p l)).
Proof.
  induction l as [|a l IH]; simpl; intros H; [constructor|].
  inversion H as [|? ? Hnotin Hnd]; subst.
  destruct (p a); simpl; auto.
  constructor; auto.
  rewrite in_map_iff. intros [r [E Hr]]. apply filter_In in Hr.
  apply Hnotin. rewrite <- E. apply in_map. tauto.
Qed.

(* ================================================================= *)
(** ** What each handler does to the database *)

Lemma getTodos_eq s : getTodos s = (Ok (todosTable s), s).
Proof. reflexivity. Qed.

Lemma listed_eq s : listed s = todosTable s.
Proof. reflexivity. Qed.

Lemma deleteTodo_eq input s :
  deleteTodo input s =
  (Ok (mkDeleteResult (existsb (Pg.eq_id (delete_id input)) (todosTable s))),
   mkDb (filter (fun r => negb (Pg.eq_id (delete_id input) r)) (todosTable s))
        (todos_id_seq s)).
Proof. reflexivity. Qed.

Lemma createTodo_rejected now input s :
  input_title input = EmptyString ->
  createTodo now input s = (Err ValidationError, s).
Proof. unfold createTodo. intros ->. reflexivity. Qed.

Lemma createTodo_accepted now input s :
  input_title input <> EmptyString ->
  createTodo now input s =
  (let r := mkTodo (todos_id_seq s + 1) (input_title input)
              (match input_description input with
               | Some (Some d) => Some d
               | _ => None
               end) false now now in
   (Ok r, mkDb (todosTable s ++ [r]) (todos_id_seq s + 1))).
Proof.
  unfold createTodo. intros H. apply String.eqb_neq in H. rewrite H.
  unfold Pg.insert_returning. destruct (input_description input) as [[d|]|];
    reflexivity.
Qed.

(** The two cases of [createTodo]: the title is empty and the input is
    rejected, or it is not and the row is inserted. *)
Ltac title_cases input :=
  let E := fresh "Etitle" in
  destruct (String.eqb_spec (input_title input) EmptyString) as [E|E];
  [ rewrite createTodo_rejected by exact E
  | rewrite createTodo_accepted by exact E ].

Lemma rejected_absent i s :
  Pg.accepts_id i s = false -> ~ In i (ids s).
Proof.
  unfold Pg.accepts_id. intros H. apply orb_false_iff in H.
  apply existsb_hit_false, H.
Qed.

Lemma present_accepted i s r0 :
  lookup i s = Some r0 -> Pg.accepts_id i s = true.
Proof.
  intros F. unfold Pg.accepts_id. apply orb_true_iff. right.
  apply existsb_hit. unfold lookup in F. apply find_some in F.
  destruct F as [Hin Hid]. apply eq_id_true in Hid.
  rewrite <- Hid. apply in_map, Hin.
Qed.

Lemma absent_accepted i s :
  ~ In i (ids s) -> Pg.accepts_id i s = Pg.in_int4 i.
Proof.
  intros H. unfold Pg.accepts_id.
  rewrite (proj2 (existsb_hit_false _ _) H). apply orb_false_r.
Qed.

(** The table after a completion update, whether a row matched or not. *)
Lemma updateTodoCompletion_db now input s :
  snd (updateTodoCompletion now input s) =
  mkDb (filter (fun r => negb (Pg.eq_id (update_id input) r)) (todosTable s)
        ++ map (Pg.set_completion (update_completed input) now)
               (filter (Pg.eq_id (update_id input)) (todosTable s)))
       (todos_id_seq s).
Proof.
  unfold updateTodoCompletion, try_catch, bind, Pg.update_returning, throw, ret.
  destruct (Pg.accepts_id (update_id input) s) eqn:A.
  - destruct (filter (Pg.eq_id (update_id input)) (todosTable s)); reflexivity.
  - apply rejected_absent in A. simpl.
    rewrite (filter_hit_absent _ _ A), (filter_miss_absent _ _ A), app_nil_r.
    destruct s; reflexivity.
Qed.

(** The answer of a completion update: the new version of the first row
    that matched, or the failure when none did. *)
Lemma updateTodoCompletion_answer now input s :
  fst (updateTodoCompletion now input s) =
  match lookup (update_id input) s with
  | Some r0 => Ok (Pg.set_completion (update_completed input) now r0)
  | None    => if Pg.in_int4 (update_id input)
               then Err (Error (not_found_message (update_id input)))
               else Err DatabaseError
  end.
Proof.
  destruct (lookup (update_id input) s) as [r0|] eqn:L.
  - unfold updateTodoCompletion, try_catch, bind, Pg.update_returning, throw,
      ret.
    rewrite (present_accepted _ _ _ L). unfold lookup in L.
    destruct (find_filter_head _ _ _ L) as [rest ->]. reflexivity.
  - unfold lookup in L. apply find_none_absent in L.
    unfold updateTodoCompletion, try_catch, bind, Pg.update_returning, throw,
      ret.
    rewrite (absent_accepted _ _ L).
    destruct (Pg.in_int4 (update_id input)); [|reflexivity].
    rewrite (filter_hit_absent _ _ L). reflexivity.
Qed.

Lemma set_completion_id v now r : id (Pg.set_completion v now r) = id r.
Proof. reflexivity. Qed.

(** The rows of the table after a completion update: the rows with another
    id as they were, and the new versions of the rows with that id. *)
Lemma in_updated now input s r :
  In r (todosTable (snd (updateTodoCompletion now input s))) <->
  (In r (todosTable s) /\ id r <> update_id input) \/
  (exists r0, In r0 (todosTable s) /\ id r0 = update_id input /\
              r = Pg.set_completion (update_completed input) now r0).
Proof.
  rewrite updateTodoCompletion_db. simpl.
  rewrite in_app_iff, in_miss, in_map_iff.
  split; (intros [H|[r0 H]]; [left; exact H | right; exists r0]).
  - destruct H as [E H]. apply filter_In in H. destruct H as [H1 H2].
    apply eq_id_true in H2. auto.
  - destruct H as [H1 [H2 E]]. split; [auto|]. apply filter_In.
    split; [assumption | apply eq_id_true; assumption].
Qed.

Lemma lookup_updated_same now input s r0 :
  lookup (update_id input) s = Some r0 ->
  lookup (update_id input) (snd (updateTodoCompletion now input s)) =
  Some (Pg.set_completion (update_completed input) now r0).
Proof.
  intros F. unfold lookup in *. rewrite updateTodoCompletion_db. simpl.
  rewrite find_app, find_miss_none.
  destruct (find_filter_head _ _ _ F) as [rest ->]. simpl.
  assert (Pg.eq_id (update_id input)
            (Pg.set_completion (update_completed input) now r0) = true) as ->.
  { apply eq_id_true. rewrite set_completion_id. eapply find_hit_id; eauto. }
  reflexivity.
Qed.

Lemma lookup_updated_other now input s j :
  j <> update_id input ->
  lookup j (snd (updateTodoCompletion now input s)) = lookup j s.
Proof.
  intros Hj. unfold lookup. rewrite updateTodoCompletion_db. simpl.
  rewrite find_app, find_other_miss by assumption.
  rewrite find_other_hit by (auto using set_completion_id).
  destruct (find (Pg.eq_id j) (todosTable s)); reflexivity.
Qed.

Lemma updateTodoCompletion_returns now input s r0 :
  lookup (update_id input) s = Some r0 ->
  updateTodoCompletion now input s =
  (Ok (Pg.set_completion (update_completed input) now r0),
   snd (updateTodoCompletion now input s)).
Proof.
  intros F.
  rewrite (surjective_pairing (updateTodoCompletion now input s)) at 1.
  rewrite updateTodoCompletion_answer, F. reflexivity.
Qed.

Lemma updateTodoCompletion_absent_db now input s :
  ~ In (update_id input) (ids s) ->
  snd (updateTodoCompletion now input s) = s.
Proof.
  intros H. rewrite updateTodoCompletion_db.
  rewrite (filter_hit_absent _ _ H), (filter_miss_absent _ _ H). simpl.
  rewrite app_nil_r. destruct s; reflexivity.
Qed.

Lemma updateTodoCompletion_absent now input s :
  ~ In (update_id input) (ids s) ->
  Pg.in_int4 (update_id input) = true ->
  updateTodoCompletion now input s =
  (Err (Error (not_found_message (update_id input))), s).
Proof.
  intros H R. rewrite (surjective_pairing (updateTodoCompletion now input s)).
  rewrite updateTodoCompletion_answer, updateTodoCompletion_absent_db by exact H.
  unfold lookup. rewrite (proj2 (find_none_absent _ _) H), R. reflexivity.
Qed.

Lemma updateTodoCompletion_out_of_range now input s :
  ~ In (update_id input) (ids s) ->
  Pg.in_int4 (update_id input) = false ->
  updateTodoCompletion now input s = (Err DatabaseError, s).
Proof.
  intros H R. rewrite (surjective_pairing (updateTodoCompletion now input s)).
  rewrite updateTodoCompletion_answer, updateTodoCompletion_absent_db by exact H.
  unfold lookup. rewrite (proj2 (find_none_absent _ _) H), R. reflexivity.
Qed.

Lemma updateTodoCompletion_absent_fails now input s :
  ~ In (update_id input) (ids s) ->
  exists e, updateTodoCompletion now input s = (Err e, s).
Proof.
  intros H. destruct (Pg.in_int4 (update_id input)) eqn:R.
  - eexists. apply updateTodoCompletion_absent; assumption.
  - eexists. apply updateTodoCompletion_out_of_range; assumption.
Qed.

(* ================================================================= *)
(** ** The invariants hold along every history *)

Lemma stamped_later t t' s : stamped t s -> t <= t' -> stamped t' s.
Proof.
  unfold stamped. rewrite !Forall_forall. intros H Ht r Hr.
  specialize (H r Hr). lia.
Qed.

Lemma inv_later t t' s : inv t s -> t <= t' -> inv t' s.
Proof.
  intros [H1 [H2 H3]] Ht. repeat split; eauto using stamped_later.
Qed.

Lemma seq_ok_fresh s : seq_ok s -> ~ In (todos_id_seq s + 1) (ids s).
Proof.
  unfold seq_ok, ids. rewrite Forall_forall, in_map_iff.
  intros H [r [E Hr]]. specialize (H r Hr). lia.
Qed.

Lemma createTodo_inv t now input s :
  inv t s -> t <= now -> inv now (snd (createTodo now input s)).
Proof.
  intros Hinv Ht.
  title_cases input.
  - eauto using inv_later.
  - simpl.
    destruct Hinv as [Hnd [Hseq Hst]].
    unfold inv, ids, seq_ok, stamped in *. simpl.
    rewrite map_app. simpl. repeat split.
    + apply NoDup_app; [assumption | repeat constructor; auto |].
      intros a Ha [<-|[]]. exact (seq_ok_fresh s Hseq Ha).
    + apply Forall_app. split.
      * rewrite Forall_forall in *. intros r Hr. specialize (Hseq r Hr). lia.
      * repeat constructor. simpl. lia.
    + apply Forall_app. split.
      * rewrite Forall_forall in *. intros r Hr. specialize (Hst r Hr). lia.
      * repeat constructor; simpl; lia.
Qed.

Lemma updateTodoCompletion_inv t now input s :
  inv t s -> t <= now -> inv now (snd (updateTodoCompletion now input s)).
Proof.
  intros [Hnd [Hseq Hst]] Ht. unfold inv, seq_ok, stamped in *.
  repeat split.
  - rewrite updateTodoCompletion_db. unfold ids in *. simpl.
    rewrite map_app, map_map. simpl.
    apply NoDup_app.
    + apply NoDup_ids_filter. assumption.
    + apply NoDup_ids_filter. assumption.
    + intros a Ha Hb. apply (ids_miss (update_id input) (todosTable s)).
      rewrite in_map_iff in Hb. destruct Hb as [r [E Hr]].
      apply filter_In in Hr. destruct Hr as [_ Hr]. apply eq_id_true in Hr.
      assert (Ea : a = update_id input) by congruence.
      rewrite Ea in Ha. exact Ha.
  - rewrite Forall_forall in *. intros r Hr. apply in_updated in Hr.
    rewrite updateTodoCompletion_db. simpl.
    destruct Hr as [[Hr _]|[r0 [Hr0 [_ ->]]]]; [apply Hseq, Hr|].
    simpl. apply Hseq, Hr0.
  - rewrite Forall_forall in *. intros r Hr. apply in_updated in Hr.
    destruct Hr as [[Hr _]|[r0 [Hr0 [_ ->]]]].
    + specialize (Hst r Hr). lia.
    + specialize (Hst r0 Hr0). simpl. lia.
Qed.

Lemma deleteTodo_inv t input s :
  inv t s -> inv t (snd (deleteTodo input s)).
Proof.
  intros [Hnd [Hseq Hst]]. rewrite deleteTodo_eq. simpl.
  unfold inv, ids, seq_ok, stamped in *. simpl. repeat split.
  - apply NoDup_ids_filter. assumption.
  - rewrite Forall_forall in *. intros r Hr. apply in_miss in Hr.
    apply Hseq, Hr.
  - rewrite Forall_forall in *. intros r Hr. apply in_miss in Hr.
    apply Hst, Hr.
Qed.

Lemma serve_inv t now rq s :
  inv t s -> t <= now -> inv now (serve now rq s).
Proof.
  intros Hinv Ht. destruct rq as [input| |input|input]; simpl.
  - exact (createTodo_inv t now input s Hinv Ht).
  - exact (inv_later t now s Hinv Ht).
  - exact (updateTodoCompletion_inv t now input s Hinv Ht).
  - exact (deleteTodo_inv now input s (inv_later t now s Hinv Ht)).
Qed.

Lemma empty_inv t : inv t empty_db.
Proof. repeat split; constructor. Qed.

Lemma reachable_inv t s : reachable t s -> inv t s.
Proof.
  induction 1 as [t|t s now rq _ IH Ht].
  - apply empty_inv.
  - eauto using serve_inv.
Qed.

Lemma reachable_run h : forall t s,
  reachable t s -> chronological t h ->
  reachable (last_reading t h) (run h s).
Proof.
  induction h as [|[now rq] h IH]; simpl; intros t s Hs Hh; [assumption|].
  destruct Hh as [Ht Hh]. apply IH; [|assumption].
  apply reachable_step with (t := t); assumption.
Qed.

(** The sequence never steps back, and an id it has passed and that is not
    in the table never comes back. *)
Lemma serve_gone i now rq s : gone i s -> gone i (serve now rq s).
Proof.
  intros [Hout Hle]. destruct rq as [input| |input|input]; simpl.
  - title_cases input.
    + split; assumption.
    + unfold gone, ids in *. simpl.
      rewrite map_app, in_app_iff. simpl. split; [|lia].
      intros [H|[H|[]]]; [auto | lia].
  - split; assumption.
  - split.
    + unfold ids in *. rewrite in_map_iff. intros [r [E Hr]].
      apply in_updated in Hr. apply Hout. rewrite in_map_iff.
      destruct Hr as [[Hr _]|[r0 [Hr0 [_ ->]]]].
      * exists r. split; assumption.
      * exists r0. split; [exact E | assumption].
    + rewrite updateTodoCompletion_db. simpl. assumption.
  - unfold gone, ids in *. simpl. split; [|assumption].
    rewrite in_map_iff. intros [r [E Hr]]. apply in_miss in Hr.
    apply Hout. rewrite in_map_iff. exists r. tauto.
Qed.

Lemma run_gone i h : forall s, gone i s -> gone i (run h s).
Proof.
  induction h as [|[now rq] h IH]; simpl; intros s H; [assumption|].
  apply IH, serve_gone, H.
Qed.

(* ================================================================= *)
(** ** The not-found message names the id *)

Lemma number_to_string_inj a b :
  number_to_string a = number_to_string b -> a = b.
Proof.
  unfold number_to_string. intros H.
  assert (E : Some (Z.to_int a) = Some (Z.to_int b)).
  { rewrite <- !NilEmpty.isi. rewrite H. reflexivity. }
  injection E as E.
  rewrite <- (DecimalZ.of_to a), <- (DecimalZ.of_to b), E. reflexivity.
Qed.

Lemma list_ascii_of_append (a c : string) :
  list_ascii_of_string (a ++ c)%string =
  list_ascii_of_string a ++ list_ascii_of_string c.
Proof. induction a as [|x a IH]; simpl; [reflexivity | now rewrite IH]. Qed.

Lemma append_inv_tail (a b c : string) :
  (a ++ c)%string = (b ++ c)%string -> a = b.
Proof.
  intros H. apply (f_equal list_ascii_of_string) in H.
  rewrite !list_ascii_of_append in H. apply app_inv_tail in H.
  rewrite <- (string_of_list_ascii_of_string a).
  rewrite <- (string_of_list_ascii_of_string b). now rewrite H.
Qed.

Lemma not_found_message_inj i j :
  not_found_message i = not_found_message j -> i = j.
Proof.
  unfold not_found_message. intros H. simpl in H.
  injection H as H. apply append_inv_tail in H.
  apply number_to_string_inj, H.
Qed.

(* ================================================================= *)
(** ** Reading: [getTodos] *)

(** C1: the spec and the test "should return todos in insertion order"
    have [getTodos] return the todos in insertion order, ascending in id.
    The handler issues a select without [ORDER BY] and hands back the rows
    as the scan meets them.  On the history of two creations and a
    completion update of the first todo, from the empty table, it returns
    todo 2 before todo 1: the ids listed are [2; 1], not ascending. *)
Lemma getTodos_after_update_not_in_id_order :
  reachable 1002 (run first_completed empty_db) /\
  map id (listed (run first_completed empty_db)) = [2; 1] /\
  ~ ascending (map id (listed (run first_completed empty_db))).
Proof.
  split; [|split].
  - apply (reachable_run first_completed 1000 empty_db (reachable_init 1000)).
    simpl. lia.
  - reflexivity.
  - intros H. change (StronglySorted Z.lt [2; 1]) in H.
    apply StronglySorted_inv in H. destruct H as [_ H].
    inversion H; subst. lia.
Qed.

(** C10: [getTodos] is read-only.  The database after the call is the
    database before it: the same rows in the same order, every field of
    every row, [updated_at] included, and the same sequence. *)
Theorem getTodos_read_only s :
  snd (getTodos s) = s /\
  todosTable (snd (getTodos s)) = todosTable s /\
  map updated_at (todosTable (snd (getTodos s))) =
  map updated_at (todosTable s).
Proof. repeat split; reflexivity. Qed.

(* ================================================================= *)
(** ** Completing and reopening: [updateTodoCompletion] *)

(** C2, as the spec has it, fails for an id outside the range of the id
    column: no row has the id 2147483648, and the update of it does not
    end in the not-found error of the handler but in the error of the
    database, which the handler throws again.  The table is untouched. *)
Lemma updateTodoCompletion_id_out_of_range :
  ~ In 2147483648 (ids three_todos) /\
  updateTodoCompletion 2000 (mkUpdateTodoCompletionInput 2147483648 true)
    three_todos = (Err DatabaseError, three_todos) /\
  fst (updateTodoCompletion 2000 (mkUpdateTodoCompletionInput 2147483648 true)
         three_todos)
    <> Err (Error (not_found_message 2147483648)).
Proof.
  split; [|split].
  - simpl. lia.
  - reflexivity.
  - discriminate.
Qed.

(** C2, amended: for an id that no row of the table has, and either
    boolean, [updateTodoCompletion] fails and the database is left exactly
    as it was, no row created.  When the id is a value of the id column, a
    32-bit integer, it throws the error whose message is
    [Todo with id <id> not found], a message that names this id and no
    other; when it is not, it throws the error of the database. *)
Theorem updateTodoCompletion_not_found now input s :
  ~ In (update_id input) (ids s) ->
  (Pg.in_int4 (update_id input) = true ->
   updateTodoCompletion now input s =
     (Err (Error (not_found_message (update_id input))), s)) /\
  (Pg.in_int4 (update_id input) = false ->
   updateTodoCompletion now input s = (Err DatabaseError, s)) /\
  snd (updateTodoCompletion now input s) = s /\
  (forall r, fst (updateTodoCompletion now input s) <> Ok r) /\
  (forall j, not_found_message j = not_found_message (update_id input) ->
             j = update_id input).
Proof.
  intros H. split; [|split; [|split; [|split]]].
  - intros R. apply updateTodoCompletion_absent; assumption.
  - intros R. apply updateTodoCompletion_out_of_range; assumption.
  - apply updateTodoCompletion_absent_db, H.
  - intros r. destruct (updateTodoCompletion_absent_fails now input s H)
      as [e ->]. discriminate.
  - intros j. apply not_found_message_inj.
Qed.

Lemma updateTodoCompletion_not_found_witness :
  updateTodoCompletion 2000 (mkUpdateTodoCompletionInput 999 true) three_todos =
  (Err (Error "Todo with id 999 not found"), three_todos).
Proof.
  destruct (updateTodoCompletion_not_found 2000
              (mkUpdateTodoCompletionInput 999 true) three_todos)
    as [H _].
  - simpl. lia.
  - apply H. reflexivity.
Defined.

(** C5: for an id that a row [r0] of the table has, and either boolean,
    [updateTodoCompletion] returns the row with [completed] set to the
    given value and [updated_at] set to the server time of the call, and
    with the [id], [title], [description] and [created_at] of [r0]; the
    returned row is the row the table now holds under that id, and the row
    under any other id is as it was.  The table itself: its rows are the
    old rows with another id, unchanged, and for each old row with that id
    the same row with the two fields written, and nothing else (no old
    version stays, no row is added); it has as many rows as before and the
    sequence has not moved. *)
Theorem updateTodoCompletion_present now input s r0 :
  lookup (update_id input) s = Some r0 ->
  exists r s',
    updateTodoCompletion now input s = (Ok r, s') /\
    lookup (update_id input) s' = Some r /\
    completed r = update_completed input /\
    updated_at r = now /\
    id r = id r0 /\ title r = title r0 /\
    description r = description r0 /\ created_at r = created_at r0 /\
    (forall j, j <> update_id input -> lookup j s' = lookup j s) /\
    (forall x, In x (todosTable s') <->
       (In x (todosTable s) /\ id x <> update_id input) \/
       (exists x0, In x0 (todosTable s) /\ id x0 = update_id input /\
          x = mkTodo (id x0) (title x0) (description x0)
                     (update_completed input) (created_at x0) now)) /\
    List.length (todosTable s') = List.length (todosTable s) /\
    todos_id_seq s' = todos_id_seq s.
Proof.
  intros F.
  exists (Pg.set_completion (update_completed input) now r0),
         (snd (updateTodoCompletion now input s)).
  split; [|split].
  - apply updateTodoCompletion_returns, F.
  - apply lookup_updated_same, F.
  - do 6 (split; [reflexivity|]).
    split; [|split; [|split]].
    + intros j Hj. apply lookup_updated_other, Hj.
    + intros x. apply in_updated.
    + rewrite updateTodoCompletion_db. simpl.
      rewrite length_app, length_map. apply length_hit_miss.
    + rewrite updateTodoCompletion_db. reflexivity.
Qed.

Lemma updateTodoCompletion_present_witness :
  exists r s',
    updateTodoCompletion 2000 (mkUpdateTodoCompletionInput 2 true) three_todos
      = (Ok r, s') /\
    lookup 2 s' = Some r /\ completed r = true /\ updated_at r = 2000 /\
    id r = 2 /\ title r = "Beta Todo"%string /\ description r = None /\
    created_at r = 1001 /\
    (forall j, j <> 2 -> lookup j s' = lookup j three_todos) /\
    List.length (todosTable s') = 3%nat.
Proof.
  destruct (updateTodoCompletion_present 2000
              (mkUpdateTodoCompletionInput 2 true) three_todos
              (mkTodo 2 "Beta Todo" None false 1001 1001) eq_refl)
    as [r [s' [E [L [C [U [I [T [D [K [O [_ [N _]]]]]]]]]]]]].
  exists r, s'. repeat split; assumption.
Defined.

(** C7: the spec and the test "should handle multiple completion status
    toggles" have each of two calls in a row strictly increase
    [updated_at].  The handler writes what the server clock reads during
    the call and nothing more, and two calls served within the same
    millisecond read the same time.  Todo 2 is created at 1001 and then
    completed and reopened at 1003 and 1003: both calls answer the row the
    table then holds, the second with [completed = false] and with the
    [created_at] of the first, but with the [updated_at] of the first as
    well, not a later one. *)
Lemma toggle_within_one_millisecond :
  exists r1 s1 r2 s2,
    reachable 1002 three_todos /\
    updateTodoCompletion 1003 (mkUpdateTodoCompletionInput 2 true) three_todos
      = (Ok r1, s1) /\
    updateTodoCompletion 1003 (mkUpdateTodoCompletionInput 2 false) s1
      = (Ok r2, s2) /\
    completed r2 = false /\
    ~ (updated_at r1 < updated_at r2) /\
    lookup 2 s1 = Some r1 /\ lookup 2 s2 = Some r2 /\
    r1 = mkTodo 2 "Beta Todo" None true 1001 1003 /\
    r2 = mkTodo 2 "Beta Todo" None false 1001 1003 /\
    List.length (todosTable s2) = 3%nat.
Proof.
  do 4 eexists. split; [|split; [|split; [|split]]].
  - apply (reachable_run three_created 1000 empty_db (reachable_init 1000)).
    simpl. lia.
  - reflexivity.
  - reflexivity.
  - reflexivity.
  - split; [simpl; lia|]. repeat split.
Qed.

(** C9: [updateTodoCompletion] writes the value it is given and does not
    flip the stored one.  For an id that a row of the table has, and either
    boolean [v], the row under that id has [completed = v] after one call
    with [v] and after a second call with [v], and both calls return a row
    with [completed = v], whatever the row held before.  In the table,
    after the first call and after the second, every row with that id has
    [completed = v], the [completed] of every row with another id is what
    it was, and the table has as many rows as at the start. *)
Theorem updateTodoCompletion_idempotent_completed t1 t2 input s r0 :
  lookup (update_id input) s = Some r0 ->
  exists r1 s1 r2 s2,
    updateTodoCompletion t1 input s = (Ok r1, s1) /\
    updateTodoCompletion t2 input s1 = (Ok r2, s2) /\
    completed r1 = update_completed input /\
    completed r2 = update_completed input /\
    option_map completed (lookup (update_id input) s1)
      = Some (update_completed input) /\
    option_map completed (lookup (update_id input) s2)
      = option_map completed (lookup (update_id input) s1) /\
    (forall x, In x (todosTable s1) -> id x = update_id input ->
               completed x = update_completed input) /\
    (forall x, In x (todosTable s2) -> id x = update_id input ->
               completed x = update_completed input) /\
    (forall x, id x <> update_id input ->
               (In x (todosTable s2) <-> In x (todosTable s)) /\
               (In x (todosTable s1) <-> In x (todosTable s))) /\
    List.length (todosTable s1) = List.length (todosTable s) /\
    List.length (todosTable s2) = List.length (todosTable s).
Proof.
  intros F.
  pose proof (updateTodoCompletion_returns t1 input s r0 F) as E1.
  pose proof (lookup_updated_same t1 input s r0 F) as F1.
  pose proof (updateTodoCompletion_returns t2 input _ _ F1) as E2.
  pose proof (lookup_updated_same t2 input _ _ F1) as F2.
  do 4 eexists. split; [exact E1|]. split; [exact E2|].
  rewrite F1, F2. do 4 (split; [reflexivity|]).
  split; [|split; [|split; [|split]]].
  - intros x Hx Hid. apply in_updated in Hx.
    destruct Hx as [[_ Hx]|[x0 [_ [_ ->]]]]; [contradiction | reflexivity].
  - intros x Hx Hid. apply in_updated in Hx.
    destruct Hx as [[_ Hx]|[x0 [_ [_ ->]]]]; [contradiction | reflexivity].
  - intros x Hid. rewrite !in_updated. split.
    + split.
      * intros [[[[H _]|[x0 [_ [E ->]]]] _]|[x0 [_ [E ->]]]];
          [exact H | exfalso; apply Hid, E | exfalso; apply Hid, E].
      * intros H. left. split; [left; split|]; assumption.
    + split.
      * intros [[H _]|[x0 [_ [E ->]]]]; [exact H | exfalso; apply Hid, E].
      * intros H. left. split; assumption.
  - rewrite updateTodoCompletion_db. simpl.
    rewrite length_app, length_map. apply length_hit_miss.
  - rewrite !updateTodoCompletion_db. simpl.
    rewrite length_app, length_map, length_hit_miss.
    rewrite length_app, length_map. apply length_hit_miss.
Qed.

Lemma updateTodoCompletion_idempotent_completed_witness :
  exists r1 s1 r2 s2,
    updateTodoCompletion 2000 (mkUpdateTodoCompletionInput 3 true) three_todos
      = (Ok r1, s1) /\
    updateTodoCompletion 2001 (mkUpdateTodoCompletionInput 3 true) s1
      = (Ok r2, s2) /\
    completed r1 = true /\ completed r2 = true /\
    option_map completed (lookup 3 s1) = Some true /\
    option_map completed (lookup 3 s2) = option_map completed (lookup 3 s1) /\
    List.length (todosTable s2) = 3%nat.
Proof.
  destruct (updateTodoCompletion_idempotent_completed 2000 2001
              (mkUpdateTodoCompletionInput 3 true) three_todos
              (mkTodo 3 "Gamma Todo" (Some "Description for Gamma Todo")
                      false 1002 1002) eq_refl)
    as [r1 [s1 [r2 [s2 [E1 [E2 [C1 [C2 [L1 [L2 [_ [_ [_ [_ N]]]]]]]]]]]]]].
  exists r1, s1, r2, s2. repeat split; assumption.
Defined.

(* ================================================================= *)
(** ** Creating: [createTodo] *)

(** C4: for every input with a non-empty title, with or without a
    description, on a table whose ids were all drawn from the sequence,
    [createTodo] returns a todo with [completed = false], an [id] that no
    todo of the table has, [created_at] equal to [updated_at], and no
    description when the input leaves the description out or gives it as
    null; the todo carries the title given and is stored as the last row. *)
Theorem createTodo_valid now input s :
  input_title input <> EmptyString ->
  seq_ok s ->
  exists r s',
    createTodo now input s = (Ok r, s') /\
    completed r = false /\
    ~ In (id r) (ids s) /\
    created_at r = updated_at r /\
    (input_description input = None \/ input_description input = Some None ->
       description r = None) /\
    (forall d, input_description input = Some (Some d) ->
       description r = Some d) /\
    title r = input_title input /\
    todosTable s' = todosTable s ++ [r].
Proof.
  intros Ht Hseq. rewrite createTodo_accepted by assumption. simpl.
  do 2 eexists. split; [reflexivity|]. simpl.
  split; [reflexivity|]. split; [exact (seq_ok_fresh s Hseq)|].
  split; [reflexivity|]. split; [|split; [|split; reflexivity]].
  - intros [-> | ->]; reflexivity.
  - intros d ->. reflexivity.
Qed.

Lemma createTodo_valid_witness :
  exists r s',
    createTodo 2000 (mkCreateTodoInput "Buy milk" None) three_todos
      = (Ok r, s') /\
    completed r = false /\ ~ In (id r) (ids three_todos) /\
    created_at r = updated_at r /\ description r = None.
Proof.
  destruct (createTodo_valid 2000 (mkCreateTodoInput "Buy milk" None)
              three_todos)
    as [r [s' [E [C [Hfresh [Hstamp [Hnone _]]]]]]].
  - discriminate.
  - repeat constructor; simpl; lia.
  - exists r, s'. repeat split; try assumption.
    apply Hnone. left. reflexivity.
Defined.

(* ================================================================= *)
(** ** Deleting: [deleteTodo] *)

(** C3: for an id that no row of the table has, [deleteTodo] answers
    [{ success: false }] and leaves the database exactly as it was; and on
    no database at all does [deleteTodo] throw, where
    [updateTodoCompletion] throws for the same missing id, the not-found
    error when the id is a value of the id column. *)
Theorem deleteTodo_absent input s :
  ~ In (delete_id input) (ids s) ->
  deleteTodo input s = (Ok (mkDeleteResult false), s) /\
  (forall s0 e, fst (deleteTodo input s0) <> Err e) /\
  (forall now v, exists e,
     fst (updateTodoCompletion now
            (mkUpdateTodoCompletionInput (delete_id input) v) s) = Err e /\
     (Pg.in_int4 (delete_id input) = true ->
      e = Error (not_found_message (delete_id input)))).
Proof.
  intros H. split; [|split].
  - rewrite deleteTodo_eq.
    rewrite (proj2 (existsb_hit_false _ _) H).
    rewrite (filter_miss_absent _ _ H). destruct s; reflexivity.
  - intros s0 e. rewrite deleteTodo_eq. discriminate.
  - intros now v.
    destruct (Pg.in_int4 (delete_id input)) eqn:R.
    + rewrite (updateTodoCompletion_absent now
                 (mkUpdateTodoCompletionInput (delete_id input) v) s H R).
      eexists. split; reflexivity.
    + rewrite (updateTodoCompletion_out_of_range now
                 (mkUpdateTodoCompletionInput (delete_id input) v) s H R).
      eexists. split; [reflexivity | discriminate].
Qed.

Lemma deleteTodo_absent_witness :
  deleteTodo (mkDeleteTodoInput 99999) three_todos =
  (Ok (mkDeleteResult false), three_todos).
Proof.
  destruct (deleteTodo_absent (mkDeleteTodoInput 99999) three_todos) as [H _].
  - simpl. lia.
  - exact H.
Defined.

(** C6: for an id that a row of the table has, on a table with unique ids
    all drawn from the sequence, [deleteTodo] answers [{ success: true }]
    and removes exactly the row with that id: the table is one row
    shorter, it is the old table without that row, every row with another
    id is still there as it was and found under its id as before, and the
    deleted id is in no [getTodos] result after any further history. *)
Theorem deleteTodo_present input s :
  NoDup (ids s) -> seq_ok s ->
  In (delete_id input) (ids s) ->
  exists s',
    deleteTodo input s = (Ok (mkDeleteResult true), s') /\
    todosTable s' =
      filter (fun r => negb (Pg.eq_id (delete_id input) r)) (todosTable s) /\
    (List.length (todosTable s') + 1)%nat = List.length (todosTable s) /\
    (forall r, In r (todosTable s') <->
               In r (todosTable s) /\ id r <> delete_id input) /\
    (forall j, j <> delete_id input -> lookup j s' = lookup j s) /\
    lookup (delete_id input) s' = None /\
    (forall h, ~ In (delete_id input) (map id (listed (run h s')))).
Proof.
  intros Hnd Hseq Hin. eexists. rewrite deleteTodo_eq.
  rewrite (proj2 (existsb_hit _ _) Hin).
  split; [reflexivity|]. simpl.
  split; [reflexivity|]. split; [|split; [|split; [|split]]].
  - apply NoDup_length_miss; assumption.
  - intros r. apply in_miss.
  - intros j Hj. unfold lookup. simpl. apply find_other_miss, Hj.
  - unfold lookup. simpl. apply find_miss_none.
  - intros h. rewrite listed_eq. apply run_gone. split.
    + unfold ids. simpl. apply ids_miss.
    + simpl. unfold seq_ok, ids in *. rewrite Forall_forall in Hseq.
      rewrite in_map_iff in Hin. destruct Hin as [r [<- Hr]].
      apply Hseq, Hr.
Qed.

Lemma deleteTodo_present_witness :
  exists s',
    deleteTodo (mkDeleteTodoInput 2) three_todos
      = (Ok (mkDeleteResult true), s') /\
    map id (todosTable s') = [1; 3] /\
    ~ In 2 (map id (listed (run [(2000, CreateTodo alpha)] s'))).
Proof.
  destruct (deleteTodo_present (mkDeleteTodoInput 2) three_todos)
    as [s' [E [Htable [_ [_ [_ [_ Hgone]]]]]]].
  - repeat constructor; simpl; lia.
  - repeat constructor; simpl; lia.
  - simpl. lia.
  - exists s'. split; [exact E|]. split; [rewrite Htable; reflexivity|].
    exact (Hgone [(2000, CreateTodo alpha)]).
Defined.

(* ================================================================= *)
(** ** Invariants of every reachable table *)

Lemma createTodo_ids_ok now input s :
  ids_ok s -> ids_ok (snd (createTodo now input s)).
Proof.
  intros [Hnd Hseq]. title_cases input; [split; assumption|].
  unfold ids_ok, ids, seq_ok in *. simpl. rewrite map_app. simpl. split.
  - apply NoDup_app; [assumption | repeat constructor; auto |].
    intros a Ha [<-|[]]. exact (seq_ok_fresh s Hseq Ha).
  - apply Forall_app. split.
    + rewrite Forall_forall in *. intros r Hr. specialize (Hseq r Hr). lia.
    + repeat constructor. simpl. lia.
Qed.

Lemma updateTodoCompletion_ids_ok now input s :
  ids_ok s -> ids_ok (snd (updateTodoCompletion now input s)).
Proof.
  intros [Hnd Hseq]. unfold ids_ok, seq_ok in *. split.
  - rewrite updateTodoCompletion_db. unfold ids in *. simpl.
    rewrite map_app, map_map. simpl.
    apply NoDup_app.
    + apply NoDup_ids_filter. assumption.
    + apply NoDup_ids_filter. assumption.
    + intros a Ha Hb. apply (ids_miss (update_id input) (todosTable s)).
      rewrite in_map_iff in Hb. destruct Hb as [r [E Hr]].
      apply filter_In in Hr. destruct Hr as [_ Hr]. apply eq_id_true in Hr.
      assert (Ea : a = update_id input) by congruence.
      rewrite Ea in Ha. exact Ha.
  - rewrite Forall_forall in *. intros r Hr. apply in_updated in Hr.
    rewrite updateTodoCompletion_db. simpl.
    destruct Hr as [[Hr _]|[r0 [Hr0 [_ ->]]]]; [apply Hseq, Hr|].
    simpl. apply Hseq, Hr0.
Qed.

Lemma deleteTodo_ids_ok input s :
  ids_ok s -> ids_ok (snd (deleteTodo input s)).
Proof.
  intros [Hnd Hseq]. rewrite deleteTodo_eq. simpl.
  unfold ids_ok, ids, seq_ok in *. simpl. split.
  - apply NoDup_ids_filter. assumption.
  - rewrite Forall_forall in *. intros r Hr. apply in_miss in Hr.
    apply Hseq, Hr.
Qed.

Lemma serve_ids_ok now rq s : ids_ok s -> ids_ok (serve now rq s).
Proof.
  intros H. destruct rq as [input| |input|input].
  - apply createTodo_ids_ok, H.
  - exact H.
  - apply updateTodoCompletion_ids_ok, H.
  - apply deleteTodo_ids_ok, H.
Qed.

Lemma run_ids_ok h : forall s, ids_ok s -> ids_ok (run h s).
Proof.
  induction h as [|[now rq] h IH]; simpl; intros s H; [exact H|].
  apply IH, serve_ids_ok, H.
Qed.

(** C8, as the spec has it, fails on [created_at <= updated_at]:
    [updated_at] is what the server clock reads when the update runs, and
    nothing keeps that reading from lying before the [created_at] of the
    row.  A todo is created at 1000 and completed after the clock was set
    back to 999: the table then holds it with [updated_at] before
    [created_at]. *)
Lemma updated_before_created :
  todosTable (run clock_set_back empty_db) =
    [mkTodo 1 "Alpha Todo" None true 1000 999] /\
  ~ Forall (fun r => created_at r <= updated_at r)
           (todosTable (run clock_set_back empty_db)).
Proof.
  split; [reflexivity|].
  intros H. inversion H as [|r l Hr _]; subst. simpl in Hr. lia.
Qed.

(** C8, amended: in every database reached from the empty table by any
    sequence of [createTodo], [getTodos], [updateTodoCompletion] and
    [deleteTodo] requests, no two todos have the same id and the
    [completed] of every todo is [true] or [false]; and every todo has
    [created_at <= updated_at] provided the server clock did not run
    backwards from one request to the next. *)
Theorem reachable_invariants h :
  NoDup (ids (run h empty_db)) /\
  Forall (fun r => completed r = true \/ completed r = false)
         (todosTable (run h empty_db)) /\
  (forall t, chronological t h ->
     Forall (fun r => created_at r <= updated_at r)
            (todosTable (run h empty_db))).
Proof.
  split; [|split].
  - apply (run_ids_ok h empty_db). split; constructor.
  - apply Forall_forall. intros r _. destruct (completed r); auto.
  - intros t Hh.
    pose proof (reachable_run h t empty_db (reachable_init t) Hh) as R.
    apply reachable_inv in R. destruct R as [_ [_ Hst]].
    unfold stamped in Hst. rewrite Forall_forall in Hst.
    apply Forall_forall. intros r Hr. exact (proj1 (Hst r Hr)).
Qed.

Lemma reachable_invariants_witness :
  Forall (fun r => created_at r <= updated_at r)
         (todosTable (run second_toggled empty_db)).
Proof.
  destruct (reachable_invariants second_toggled) as [_ [_ H]].
  apply (H 1000). simpl. lia.
Defined.

(* ================================================================= *)
(** ** The client: texts *)

Lemma trim_start_empty s :
  trim_start s = EmptyString <-> all_white_space s = true.
Proof.
  induction s as [|c s IH]; simpl; [tauto|].
  destruct (is_white_space c); simpl; [exact IH|].
  split; discriminate.
Qed.

Lemma trim_start_head s c t :
  trim_start s = String c t -> is_white_space c = false.
Proof.
  induction s as [|d s IH]; simpl; [discriminate|].
  destruct (is_white_space d) eqn:E; [exact IH|].
  intros H. injection H as <- _. exact E.
Qed.

Lemma trim_end_empty s :
  trim_end s = EmptyString <-> all_white_space s = true.
Proof.
  induction s as [|c s IH]; simpl; [tauto|].
  destruct (trim_end s) as [|d t].
  - destruct (is_white_space c); simpl.
    + split; intros _; [apply IH|]; reflexivity.
    + split; discriminate.
  - split; [discriminate|]. intros H. apply andb_true_iff in H.
    destruct H as [_ H]. apply IH in H. discriminate.
Qed.

Lemma trim_empty s : trim s = EmptyString <-> all_white_space s = true.
Proof.
  unfold trim. rewrite trim_end_empty. split; intros H.
  - apply trim_start_empty.
    destruct (trim_start s) as [|c t] eqn:E; [reflexivity|].
    apply trim_start_head in E. simpl in H. rewrite E in H. discriminate.
  - apply trim_start_empty in H. rewrite H. reflexivity.
Qed.

Lemma not_blank_not_empty s :
  all_white_space s = false -> s <> EmptyString.
Proof. intros H ->. discriminate. Qed.

Lemma trim_eqb_blank s :
  (trim s =? EmptyString)%string = all_white_space s.
Proof.
  destruct (all_white_space s) eqn:E.
  - apply String.eqb_eq, trim_empty, E.
  - apply String.eqb_neq. intros H. apply trim_empty in H. congruence.
Qed.

(* ================================================================= *)
(** ** The client: what each handler does *)

(** The merge of [handleToggleComplete] into one listed todo. *)
Local Abbreviation merged i c :=
  (fun todo : Todo => if id todo =? i then with_completed c todo else todo).

Local Abbreviation other i := (fun todo : Todo => negb (id todo =? i)).

Lemma loadTodos_eq a s :
  loadTodos (a, s) = (mkApp (todosTable s) false (isCreating a) (formData a), s).
Proof. reflexivity. Qed.

Lemma handleSubmit_blank_eq now a s :
  all_white_space (input_title (formData a)) = true ->
  handleSubmit now (a, s) = (a, s).
Proof. intros H. unfold handleSubmit. rewrite trim_eqb_blank, H. reflexivity. Qed.

Lemma handleSubmit_sent_eq now a s :
  all_white_space (input_title (formData a)) = false ->
  handleSubmit now (a, s) =
  (let r := mkTodo (todos_id_seq s + 1) (input_title (formData a))
              (match input_description (formData a) with
               | Some (Some d) => Some d
               | _ => None
               end) false now now in
   (mkApp (todos a ++ [r]) (isLoading a) false empty_form,
    mkDb (todosTable s ++ [r]) (todos_id_seq s + 1))).
Proof.
  intros H. unfold handleSubmit. rewrite trim_eqb_blank, H.
  change (formData (setIsCreating true a)) with (formData a).
  rewrite (createTodo_accepted now (formData a) s (not_blank_not_empty _ H)).
  reflexivity.
Qed.

Lemma handleToggleComplete_hit now i c a s r0 :
  lookup i s = Some r0 ->
  handleToggleComplete now i c (a, s) =
  (setTodos (map (merged i c) (todos a)) a,
   snd (updateTodoCompletion now (mkUpdateTodoCompletionInput i c) s)).
Proof.
  intros F. unfold handleToggleComplete.
  rewrite (updateTodoCompletion_returns now
             (mkUpdateTodoCompletionInput i c) s r0 F).
  reflexivity.
Qed.

Lemma handleToggleComplete_miss now i c a s :
  ~ In i (ids s) -> handleToggleComplete now i c (a, s) = (a, s).
Proof.
  intros H. unfold handleToggleComplete.
  destruct (updateTodoCompletion_absent_fails now
              (mkUpdateTodoCompletionInput i c) s H) as [e ->].
  reflexivity.
Qed.

Lemma handleDelete_eq i a s :
  handleDelete i (a, s) =
  (setTodos (filter (other i) (todos a)) a,
   mkDb (filter (other i) (todosTable s)) (todos_id_seq s)).
Proof. reflexivity. Qed.

Lemma lookup_cases i s :
  (exists r0, lookup i s = Some r0) \/ ~ In i (ids s).
Proof.
  unfold lookup, ids. destruct (find (Pg.eq_id i) (todosTable s)) eqn:F.
  - left. eauto.
  - right. apply find_none_absent, F.
Qed.

(* ================================================================= *)
(** ** The client: the list and the table stay in step *)

Lemma Permutation_filter (p : Todo -> bool) l l' :
  Permutation l l' -> Permutation (filter p l) (filter p l').
Proof.
  induction 1 as [|x l l' _ IH|x y l|l l' l'' _ IH1 _ IH2]; simpl.
  - constructor.
  - destruct (p x); [constructor|]; exact IH.
  - destruct (p x), (p y); try reflexivity. constructor.
  - etransitivity; eassumption.
Qed.

Lemma shown_merged i c todo : shown (merged i c todo) = merged i c (shown todo).
Proof. simpl. destruct (id todo =? i); reflexivity. Qed.

Lemma shown_list_merged i c l :
  map shown (map (merged i c) l) = map (merged i c) (map shown l).
Proof.
  rewrite !map_map. apply map_ext. intros todo. apply shown_merged.
Qed.

Lemma shown_list_other i l :
  map shown (filter (other i) l) = filter (other i) (map shown l).
Proof.
  induction l as [|r l IH]; simpl; [reflexivity|].
  destruct (id r =? i); simpl; [exact IH | now rewrite IH].
Qed.

(** The table after a completion update holds, up to order and
    [updated_at], the old rows with the new flag merged in. *)
Lemma shown_table_updated now i c l :
  Permutation
    (map (merged i c) (map shown l))
    (map shown (filter (other i) l
                ++ map (Pg.set_completion c now) (filter (Pg.eq_id i) l))).
Proof.
  induction l as [|r l IH]; simpl; [constructor|].
  unfold Pg.eq_id at 1 3. destruct (id r =? i) eqn:E; simpl.
  - rewrite map_app in *. simpl. apply Permutation_cons_app. exact IH.
  - constructor. exact IH.
Qed.

Lemma handleToggleComplete_in_sync now i c w :
  in_sync w -> in_sync (handleToggleComplete now i c w).
Proof.
  destruct w as [a s]. unfold in_sync. intros H. simpl in H.
  destruct (lookup_cases i s) as [[r0 F]|F].
  - rewrite (handleToggleComplete_hit now i c a s r0 F).
    rewrite updateTodoCompletion_db. simpl.
    rewrite shown_list_merged.
    etransitivity; [apply Permutation_map, H|].
    apply shown_table_updated.
  - rewrite handleToggleComplete_miss by assumption. exact H.
Qed.

Lemma handleDelete_in_sync i w : in_sync w -> in_sync (handleDelete i w).
Proof.
  destruct w as [a s]. unfold in_sync. rewrite handleDelete_eq. simpl.
  intros H. rewrite !shown_list_other. apply Permutation_filter, H.
Qed.

Lemma handleSubmit_in_sync now w : in_sync w -> in_sync (handleSubmit now w).
Proof.
  destruct w as [a s]. unfold in_sync. intros H.
  destruct (all_white_space (input_title (formData a))) eqn:E.
  - rewrite handleSubmit_blank_eq by assumption. exact H.
  - rewrite handleSubmit_sent_eq by assumption. simpl in *.
    rewrite !map_app. apply Permutation_app_tail, H.
Qed.

Lemma react_in_sync now ev w : in_sync w -> in_sync (react now ev w).
Proof.
  intros H. destruct ev as [|v|v| |n|n]; simpl.
  - destruct w as [a s]. rewrite loadTodos_eq. unfold in_sync. simpl.
    reflexivity.
  - exact H.
  - exact H.
  - apply handleSubmit_in_sync, H.
  - destruct (nth_error (todos (fst w)) n);
      [apply handleToggleComplete_in_sync, H | exact H].
  - destruct (nth_error (todos (fst w)) n);
      [apply handleDelete_in_sync, H | exact H].
Qed.

Lemma session_in_sync_gen evs : forall w, in_sync w -> in_sync (session evs w).
Proof.
  induction evs as [|[now ev] evs IH]; simpl; intros w H; [exact H|].
  apply IH, react_in_sync, H.
Qed.

Lemma count_completed_shown l :
  List.length (filter (fun todo => completed todo) (map shown l)) =
  List.length (filter (fun todo => completed todo) l).
Proof.
  induction l as [|r l IH]; simpl; [reflexivity|].
  destruct (completed r); simpl; now rewrite IH.
Qed.

Lemma NoDup_ids_inj l (x y : Todo) :
  NoDup (map id l) -> In x l -> In y l -> id x = id y -> x = y.
Proof.
  induction l as [|r l IH]; simpl; intros Hnd Hx Hy E; [contradiction|].
  inversion Hnd as [|? ? Hout Hnd']; subst.
  destruct Hx as [->|Hx], Hy as [->|Hy]; auto.
  - exfalso. apply Hout. rewrite E. apply in_map, Hy.
  - exfalso. apply Hout. rewrite <- E. apply in_map, Hx.
Qed.

Lemma present_lookup i s : In i (ids s) -> exists r0, lookup i s = Some r0.
Proof.
  intros H. destruct (lookup_cases i s) as [F|F]; [exact F | contradiction].
Qed.

Lemma with_completed_back (todo : Todo) c :
  with_completed (completed todo) (with_completed c todo) = todo.
Proof. destruct todo; reflexivity. Qed.

Lemma merged_back l i (todo : Todo) :
  NoDup (map id l) -> In todo l -> id todo = i ->
  map (merged i (completed todo))
      (map (merged i (negb (completed todo))) l) = l.
Proof.
  intros Hnd Hin Hid. rewrite map_map. rewrite <- (map_id l) at 2.
  apply map_ext_in. intros r Hr. simpl.
  destruct (id r =? i) eqn:E; simpl; rewrite E; [|reflexivity].
  apply Z.eqb_eq in E.
  assert (r = todo) as -> by (apply (NoDup_ids_inj l); congruence).
  apply with_completed_back.
Qed.

(* ================================================================= *)
(** ** Properties of the completion update beyond one row *)

(** X2: [updateTodoCompletion] creates no row and removes none, whatever
    its input and whether it fails or not: the table afterwards has the
    same ids, each as often as before, the same number of rows, and the
    sequence has not moved. *)
Theorem updateTodoCompletion_keeps_rows now input s :
  Permutation (ids (snd (updateTodoCompletion now input s))) (ids s) /\
  List.length (todosTable (snd (updateTodoCompletion now input s))) =
    List.length (todosTable s) /\
  todos_id_seq (snd (updateTodoCompletion now input s)) = todos_id_seq s.
Proof.
  rewrite updateTodoCompletion_db. unfold ids. simpl.
  split; [|split; [|reflexivity]].
  - rewrite map_app, map_map. simpl.
    induction (todosTable s) as [|r l IH]; simpl; [constructor|].
    destruct (Pg.eq_id (update_id input) r); simpl.
    + symmetry. apply Permutation_cons_app. symmetry. exact IH.
    + constructor. exact IH.
  - rewrite length_app, length_map. apply length_hit_miss.
Qed.

(** X3: completion updates of different todos do not interfere: what a
    call for one id answers, the row or the failure, is what it would have
    answered had the earlier call for another id not been made. *)
Theorem updateTodoCompletion_independent t1 t2 first second s :
  update_id first <> update_id second ->
  fst (updateTodoCompletion t2 second (snd (updateTodoCompletion t1 first s)))
  = fst (updateTodoCompletion t2 second s).
Proof.
  intros H. rewrite !updateTodoCompletion_answer.
  rewrite lookup_updated_other by congruence. reflexivity.
Qed.

Lemma updateTodoCompletion_independent_witness :
  fst (updateTodoCompletion 2001 (mkUpdateTodoCompletionInput 3 true)
         (snd (updateTodoCompletion 2000 (mkUpdateTodoCompletionInput 1 true)
                 three_todos)))
  = fst (updateTodoCompletion 2001 (mkUpdateTodoCompletionInput 3 true)
           three_todos).
Proof.
  apply (updateTodoCompletion_independent 2000 2001
           (mkUpdateTodoCompletionInput 1 true)
           (mkUpdateTodoCompletionInput 3 true) three_todos).
  simpl. lia.
Defined.

(** X4: a read after a write sees the write.  After a completion update
    that found its row, [getTodos] lists the row that was answered, every
    listed todo with that id carries the new flag and the time of the
    update, and the todos with another id are listed exactly as before. *)
Theorem getTodos_after_update now input s r0 :
  lookup (update_id input) s = Some r0 ->
  In (Pg.set_completion (update_completed input) now r0)
     (listed (snd (updateTodoCompletion now input s))) /\
  (forall r, In r (listed (snd (updateTodoCompletion now input s))) ->
             id r = update_id input ->
             completed r = update_completed input /\ updated_at r = now) /\
  (forall r, id r <> update_id input ->
             (In r (listed (snd (updateTodoCompletion now input s))) <->
              In r (listed s))).
Proof.
  intros F. rewrite !listed_eq. split; [|split].
  - apply in_updated. right. exists r0.
    unfold lookup in F. pose proof (find_some _ _ F) as [Hin Hid].
    apply eq_id_true in Hid. auto.
  - intros r Hr Hid. apply in_updated in Hr.
    destruct Hr as [[_ Hr]|[r1 [_ [_ ->]]]]; [contradiction|].
    split; reflexivity.
  - intros r Hid. rewrite in_updated. split.
    + intros [[H _]|[r1 [_ [E ->]]]]; [exact H|].
      exfalso. apply Hid. exact E.
    + intros H. left. split; assumption.
Qed.

Lemma getTodos_after_update_witness :
  In (mkTodo 2 "Beta Todo" None true 1001 2000)
     (listed (snd (updateTodoCompletion 2000
                     (mkUpdateTodoCompletionInput 2 true) three_todos))).
Proof.
  destruct (getTodos_after_update 2000 (mkUpdateTodoCompletionInput 2 true)
              three_todos (mkTodo 2 "Beta Todo" None false 1001 1001)
              eq_refl) as [H _].
  exact H.
Defined.

(** X5: the placeholder declaration of [updateTodoCompletion] never fails
    and never touches the table.  It answers a todo with the id and the
    flag of its input for every id, also for one that no row has, where
    the implemented handler throws; and a stored row keeps the flag it
    had. *)
Theorem placeholder_never_fails t1 t2 input s :
  (exists r,
     updateTodoCompletion_placeholder t1 t2 input s = (Ok r, s) /\
     id r = update_id input /\ completed r = update_completed input /\
     title r = "Sample Todo"%string /\ description r = None) /\
  lookup (update_id input)
         (snd (updateTodoCompletion_placeholder t1 t2 input s))
    = lookup (update_id input) s /\
  (~ In (update_id input) (ids s) ->
   forall now,
     fst (updateTodoCompletion now input s) <>
     fst (updateTodoCompletion_placeholder t1 t2 input s)).
Proof.
  split; [|split].
  - eexists. split; [reflexivity|]. repeat split.
  - reflexivity.
  - intros H now.
    destruct (updateTodoCompletion_absent_fails now input s H) as [e ->].
    discriminate.
Qed.

Lemma placeholder_never_fails_witness :
  fst (updateTodoCompletion 2000 (mkUpdateTodoCompletionInput 999 true)
         three_todos) <>
  fst (updateTodoCompletion_placeholder 2000 2000
         (mkUpdateTodoCompletionInput 999 true) three_todos).
Proof.
  destruct (placeholder_never_fails 2000 2000
              (mkUpdateTodoCompletionInput 999 true) three_todos)
    as [_ [_ H]].
  apply H. simpl. lia.
Defined.

(* ================================================================= *)
(** ** Properties of the client *)

(** X6: the description field keeps what was typed and never holds an
    empty text: after typing [v] the field displays [v]; the form holds
    [null] exactly when [v] is empty, and otherwise [v] itself; the title
    is as it was. *)
Theorem description_field_keeps_text v a :
  description_value (changeDescription v a) = v /\
  (v = EmptyString <->
   input_description (formData (changeDescription v a)) = Some None) /\
  (v <> EmptyString ->
   input_description (formData (changeDescription v a)) = Some (Some v)) /\
  input_description (formData (changeDescription v a))
    <> Some (Some EmptyString) /\
  input_title (formData (changeDescription v a)) = input_title (formData a).
Proof.
  unfold description_value, changeDescription, or_null. simpl.
  destruct (String.eqb_spec v EmptyString) as [->|N]; simpl.
  - repeat split; try reflexivity; try discriminate. intros H. contradiction.
  - repeat split; try reflexivity.
    + intros H. contradiction.
    + discriminate.
    + intros H. injection H as H. contradiction.
Qed.

(** X7: a title that is empty or made of white space only is not
    submitted: the submit button is disabled, and [handleSubmit] issues no
    request and leaves list, form and table as they are. *)
Theorem handleSubmit_blank now a s :
  all_white_space (input_title (formData a)) = true ->
  submit_disabled a = true /\ handleSubmit now (a, s) = (a, s).
Proof.
  intros H. split.
  - unfold submit_disabled. rewrite trim_eqb_blank, H. apply orb_true_r.
  - apply handleSubmit_blank_eq, H.
Qed.

Lemma handleSubmit_blank_witness :
  handleSubmit 2000 (changeTitle "  " initial_app, three_todos) =
  (changeTitle "  " initial_app, three_todos).
Proof.
  apply (handleSubmit_blank 2000 (changeTitle "  " initial_app) three_todos).
  reflexivity.
Defined.

(** X8: whenever the submit button is enabled, [handleSubmit] sends the
    form as typed and the server accepts it: the new todo carries the
    title untrimmed, is appended as the last item of the list and is the
    last row of the table, the form is back to empty and [isCreating] is
    cleared. *)
Theorem handleSubmit_sends now a s :
  submit_disabled a = false ->
  exists response s',
    createTodo now (formData a) s = (Ok response, s') /\
    handleSubmit now (a, s) =
      (mkApp (todos a ++ [response]) (isLoading a) false empty_form, s') /\
    title response = input_title (formData a) /\
    completed response = false /\
    todosTable s' = todosTable s ++ [response].
Proof.
  unfold submit_disabled. rewrite trim_eqb_blank. intros H.
  apply orb_false_iff in H. destruct H as [_ H].
  rewrite (handleSubmit_sent_eq now a s H).
  rewrite (createTodo_accepted now (formData a) s (not_blank_not_empty _ H)).
  do 2 eexists. repeat split.
Qed.

Lemma handleSubmit_sends_witness :
  exists response s',
    handleSubmit 2000 (changeTitle " Buy milk " initial_app, three_todos) =
      (mkApp (todosTable empty_db ++ [response]) false false empty_form, s') /\
    title response = " Buy milk "%string /\
    todosTable s' = todosTable three_todos ++ [response].
Proof.
  destruct (handleSubmit_sends 2000 (changeTitle " Buy milk " initial_app)
              three_todos eq_refl)
    as [response [s' [_ [E [T [_ L]]]]]].
  exists response, s'. repeat split; assumption.
Defined.

(** X9: a completion toggle for a todo that the table no longer has
    changes nothing on the client: the failure is caught, the todo stays
    listed with the flag it had, and the table is as it was. *)
Theorem handleToggleComplete_missing now n a s todo :
  nth_error (todos a) n = Some todo ->
  ~ In (id todo) (ids s) ->
  react now (ToggleClick n) (a, s) = (a, s) /\
  forall c, handleToggleComplete now (id todo) c (a, s) = (a, s).
Proof.
  intros Hn H. split.
  - simpl. rewrite Hn. apply handleToggleComplete_miss, H.
  - intros c. apply handleToggleComplete_miss, H.
Qed.

Lemma handleToggleComplete_missing_witness :
  react 2000 (ToggleClick 1)
    (fst (loadTodos (initial_app, three_todos)), empty_db) =
  (fst (loadTodos (initial_app, three_todos)), empty_db).
Proof.
  destruct (handleToggleComplete_missing 2000 1
              (fst (loadTodos (initial_app, three_todos))) empty_db
              (mkTodo 2 "Beta Todo" None false 1001 1001) eq_refl)
    as [H _].
  - simpl. tauto.
  - exact H.
Defined.

(** X10: a completion toggle that the server carries out merges only the
    flag into the list.  The listed todos keep their places, ids and
    [updated_at]; every listed todo with that id gets the flag; the todos
    with another id are listed as before; the form is untouched; and the
    row of the table has the time of the call as its [updated_at], which
    the list does not take over.  Place by place: the todo listed at a
    place afterwards has the [id], [title], [description], [created_at]
    and [updated_at] of the todo listed there before, and its [completed]
    is the flag sent when its id is the one toggled and is unchanged
    otherwise; the list is as long as before. *)
Theorem handleToggleComplete_merges now i c a s r0 :
  lookup i s = Some r0 ->
  exists a' s',
    handleToggleComplete now i c (a, s) = (a', s') /\
    map id (todos a') = map id (todos a) /\
    map updated_at (todos a') = map updated_at (todos a) /\
    (forall r, In r (todos a') -> id r = i -> completed r = c) /\
    (forall r, id r <> i -> (In r (todos a') <-> In r (todos a))) /\
    formData a' = formData a /\
    option_map updated_at (lookup i s') = Some now /\
    List.length (todos a') = List.length (todos a) /\
    (forall n todo, nth_error (todos a) n = Some todo ->
       exists todo',
         nth_error (todos a') n = Some todo' /\
         id todo' = id todo /\ title todo' = title todo /\
         description todo' = description todo /\
         created_at todo' = created_at todo /\
         updated_at todo' = updated_at todo /\
         completed todo' = (if id todo =? i then c else completed todo)).
Proof.
  intros F.
  pose proof (lookup_updated_same now (mkUpdateTodoCompletionInput i c) s r0 F)
    as L.
  rewrite (handleToggleComplete_hit now i c a s r0 F).
  do 2 eexists. split; [reflexivity|].
  split; [|split; [|split; [|split; [|split; [|split; [|split]]]]]];
    cbn [todos setTodos formData].
  - rewrite map_map. apply map_ext. intros r.
    destruct (id r =? i); reflexivity.
  - rewrite map_map. apply map_ext. intros r.
    destruct (id r =? i); reflexivity.
  - intros r Hr Hid. apply in_map_iff in Hr. destruct Hr as [r1 [E Hr1]].
    destruct (id r1 =? i) eqn:Ei; subst r; [reflexivity|].
    apply Z.eqb_neq in Ei. contradiction.
  - intros r Hid. rewrite in_map_iff. split.
    + intros [r1 [E Hr1]]. destruct (id r1 =? i) eqn:Ei; subst r;
        [|exact Hr1]. apply Z.eqb_eq in Ei. simpl in Hid. contradiction.
    + intros Hr. exists r. apply Z.eqb_neq in Hid. rewrite Hid. auto.
  - reflexivity.
  - exact (f_equal (option_map updated_at) L).
  - apply length_map.
  - intros n todo Hn. rewrite nth_error_map, Hn. simpl.
    eexists. split; [reflexivity|].
    destruct (id todo =? i); repeat split.
Qed.

Lemma handleToggleComplete_merges_witness :
  exists a' s',
    handleToggleComplete 2000 2 true (fst (loadTodos (initial_app, three_todos)),
                                      three_todos) = (a', s') /\
    map id (todos a') = [1; 2; 3] /\
    map updated_at (todos a') = [1000; 1001; 1002] /\
    option_map updated_at (lookup 2 s') = Some 2000.
Proof.
  destruct (handleToggleComplete_merges 2000 2 true
              (fst (loadTodos (initial_app, three_todos))) three_todos
              (mkTodo 2 "Beta Todo" None false 1001 1001) eq_refl)
    as [a' [s' [E [Hid [Hup [_ [_ [_ [Hnow _]]]]]]]]].
  exists a', s'. repeat split; assumption.
Defined.

(** X11: clicking the toggle of a listed todo twice brings the list back
    exactly, when the second click comes after the first has been answered
    and its answer rendered (the handlers run one at a time, as [react]
    has them), the listed ids are distinct and the table has the todo:
    the second click then sends the opposite of what the first sent, the
    list is again what it was, and the row of the table again carries the
    flag the list shows.  A second click that comes before the answer of
    the first is rendered is outside this statement. *)
Theorem toggleClick_twice t1 t2 n a s todo :
  nth_error (todos a) n = Some todo ->
  NoDup (map id (todos a)) ->
  In (id todo) (ids s) ->
  todos (fst (react t2 (ToggleClick n) (react t1 (ToggleClick n) (a, s))))
    = todos a /\
  option_map completed
    (lookup (id todo)
       (snd (react t2 (ToggleClick n) (react t1 (ToggleClick n) (a, s)))))
    = Some (completed todo) /\
  option_map completed
    (lookup (id todo) (snd (react t1 (ToggleClick n) (a, s))))
    = Some (negb (completed todo)).
Proof.
  intros Hn Hnd Hin. destruct (present_lookup _ _ Hin) as [r0 F].
  set (i := id todo) in *. set (c := completed todo) in *.
  pose (first := mkUpdateTodoCompletionInput i (negb c)).
  pose (second := mkUpdateTodoCompletionInput i c).
  pose proof (lookup_updated_same t1 first s r0 F) as F1.
  pose proof (lookup_updated_same t2 second _ _ F1) as F2.
  assert (E1 : react t1 (ToggleClick n) (a, s) =
               (setTodos (map (merged i (negb c)) (todos a)) a,
                snd (updateTodoCompletion t1 first s))).
  { simpl. rewrite Hn. apply (handleToggleComplete_hit t1 i (negb c) a s r0 F). }
  rewrite E1.
  assert (Hn1 : nth_error (map (merged i (negb c)) (todos a)) n =
                Some (with_completed (negb c) todo)).
  { rewrite nth_error_map, Hn. simpl. fold i. rewrite Z.eqb_refl. reflexivity. }
  assert (E2 : react t2 (ToggleClick n)
                 (setTodos (map (merged i (negb c)) (todos a)) a,
                  snd (updateTodoCompletion t1 first s)) =
               (setTodos (map (merged i c)
                            (map (merged i (negb c)) (todos a))) a,
                snd (updateTodoCompletion t2 second
                       (snd (updateTodoCompletion t1 first s))))).
  { cbn [react fst todos setTodos]. rewrite Hn1.
    cbn [id completed with_completed]. fold i. rewrite negb_involutive.
    rewrite (handleToggleComplete_hit t2 i c _ _ _ F1). reflexivity. }
  rewrite E2. cbn [fst snd todos setTodos]. split; [|split].
  - apply merged_back; [assumption | eapply nth_error_In; eassumption |
                        reflexivity].
  - exact (f_equal (option_map completed) F2).
  - exact (f_equal (option_map completed) F1).
Qed.

Lemma toggleClick_twice_witness :
  todos (fst (react 2001 (ToggleClick 1)
                (react 2000 (ToggleClick 1)
                   (fst (loadTodos (initial_app, three_todos)), three_todos))))
  = todosTable three_todos.
Proof.
  destruct (toggleClick_twice 2000 2001 1
              (fst (loadTodos (initial_app, three_todos))) three_todos
              (mkTodo 2 "Beta Todo" None false 1001 1001) eq_refl)
    as [H _].
  - repeat constructor; simpl; lia.
  - simpl. tauto.
  - exact H.
Defined.

(** X12: confirming the deletion of a listed todo removes it from the list
    and from the table, whatever the server answered; the todos with
    another id stay listed and stored as they were. *)
Theorem deleteClick_drops now n a s todo :
  nth_error (todos a) n = Some todo ->
  ~ In (id todo) (map id (todos (fst (react now (DeleteClick n) (a, s))))) /\
  ~ In (id todo) (ids (snd (react now (DeleteClick n) (a, s)))) /\
  (forall r, id r <> id todo ->
     (In r (todos (fst (react now (DeleteClick n) (a, s)))) <-> In r (todos a))
     /\
     (In r (todosTable (snd (react now (DeleteClick n) (a, s))))
        <-> In r (todosTable s))).
Proof.
  intros Hn.
  assert (E : react now (DeleteClick n) (a, s) = handleDelete (id todo) (a, s)).
  { cbn [react fst]. rewrite Hn. reflexivity. }
  rewrite E, handleDelete_eq. cbn [fst snd todos setTodos todosTable].
  split; [|split].
  - apply ids_miss.
  - unfold ids. simpl. apply ids_miss.
  - intros r Hr. split.
    + rewrite (in_miss (id todo) (todos a) r). tauto.
    + rewrite (in_miss (id todo) (todosTable s) r). tauto.
Qed.

Lemma deleteClick_drops_witness :
  ~ In 2 (map id (todos (fst (react 2000 (DeleteClick 1)
            (fst (loadTodos (initial_app, three_todos)), three_todos))))).
Proof.
  destruct (deleteClick_drops 2000 1
              (fst (loadTodos (initial_app, three_todos))) three_todos
              (mkTodo 2 "Beta Todo" None false 1001 1001) eq_refl)
    as [H _].
  exact H.
Defined.

(** X13: the number shown as remaining, [totalCount - completedCount], is
    the number of listed todos that are not completed; it is never
    negative and never above the total. *)
Theorem remainingCount_counts_open a :
  remainingCount a =
    Z.of_nat (List.length (filter (fun todo => negb (completed todo))
                                  (todos a))) /\
  0 <= remainingCount a <= Z.of_nat (totalCount a).
Proof.
  unfold remainingCount, totalCount, completedCount.
  assert (H : (List.length (filter (fun todo => completed todo) (todos a)) +
               List.length (filter (fun todo => negb (completed todo))
                                   (todos a)))%nat
              = List.length (todos a)).
  { induction (todos a) as [|r l IH]; simpl; [reflexivity|].
    destruct (completed r); simpl; lia. }
  lia.
Qed.

(** X14: below the form exactly one of the three panels is rendered: the
    loading notice while loading, else the empty state when the list is
    empty, else the list. *)
Theorem one_panel a :
  (shows_loading a = true /\ shows_empty_state a = false /\
   shows_list a = false) \/
  (shows_loading a = false /\ shows_empty_state a = true /\
   shows_list a = false /\ todos a = []) \/
  (shows_loading a = false /\ shows_empty_state a = false /\
   shows_list a = true /\ todos a <> []).
Proof.
  unfold shows_loading, shows_empty_state, shows_list.
  destruct (isLoading a); simpl; [left; auto|].
  right. destruct (todos a) as [|r l]; simpl.
  - left. auto.
  - right. repeat split. discriminate.
Qed.

(** X15: once the list has been loaded, it stays in step with the table
    through every session of this client: after any sequence of typing,
    submitting, toggling and deleting, and of further loads, the list
    holds exactly the todos of the table, each as often as the table has
    it, with the same id, title, description, flag and [created_at]; only
    [updated_at] and the order may differ. *)
Theorem session_in_sync evs now w :
  in_sync (session evs (react now Mount w)).
Proof.
  apply session_in_sync_gen. destruct w as [a s]. simpl.
  unfold in_sync. simpl. reflexivity.
Qed.

(** X16: in a session that starts in step with the table, the badges show
    the counts of the table: the total is the number of rows and the
    completed count is the number of completed rows. *)
Theorem badges_match_table evs w :
  in_sync w ->
  totalCount (fst (session evs w)) =
    List.length (todosTable (snd (session evs w))) /\
  completedCount (fst (session evs w)) =
    List.length (filter (fun r => completed r)
                        (todosTable (snd (session evs w)))).
Proof.
  intros H. apply (session_in_sync_gen evs) in H. unfold in_sync in H.
  unfold totalCount, completedCount. split.
  - apply Permutation_length in H. rewrite !length_map in H. exact H.
  - apply (Permutation_filter (fun todo => completed todo)) in H.
    apply Permutation_length in H. rewrite !count_completed_shown in H.
    exact H.
Qed.

Lemma badges_match_table_witness :
  totalCount (fst (session [(2000, ToggleClick 0); (2001, DeleteClick 2);
                            (2002, TitleChange "Buy milk"); (2003, Submit)]
                     (loadTodos (initial_app, three_todos)))) = 3%nat /\
  completedCount (fst (session [(2000, ToggleClick 0); (2001, DeleteClick 2);
                                (2002, TitleChange "Buy milk"); (2003, Submit)]
                         (loadTodos (initial_app, three_todos)))) = 1%nat.
Proof.
  apply (badges_match_table
           [(2000, ToggleClick 0); (2001, DeleteClick 2);
            (2002, TitleChange "Buy milk"); (2003, Submit)]
           (loadTodos (initial_app, three_todos))).
  unfold in_sync. simpl. reflexivity.
Defined.
